(** * AI image renamer: item collection, naming sanitizer, batch sequencer

    A shallow embedding of [App.tsx] (the item collection and its handlers)
    and of [services/geminiService.ts] (the generation service), with the
    properties the specification states about them.

    JavaScript strings are sequences of UTF-16 code units; the React state
    [processedImages] is an array, modelled as a list that every handler
    replaces as a whole through its updater function. *)

From Stdlib Require Import List NArith ZArith Lia Bool String Ascii.
From Stdlib Require Import Sorted Permutation DecimalPos.
Import ListNotations.

Local Open Scope N_scope.

(* ===================================================================== *)
(** * JavaScript strings and the array built-ins the program uses *)
(* ===================================================================== *)

Module JS.

Definition codeunit := N.
Definition jsstring := list codeunit.

(** An ASCII literal as a sequence of code units. *)
Definition lit (s : string) : jsstring :=
  map N_of_ascii (list_ascii_of_string s).

Definition unit_eqb (a b : codeunit) : bool := N.eqb a b.

Fixpoint str_eqb (a b : jsstring) : bool :=
  match a, b with
  | [], [] => true
  | x :: a', y :: b' => unit_eqb x y && str_eqb a' b'
  | _, _ => false
  end.

(** [!!s] for a string: the empty string is the only falsy one. *)
Definition truthy (s : jsstring) : bool :=
  match s with [] => false | _ :: _ => true end.

(** Code-unit order, the order of [<] on strings and of [Array.prototype.sort]
    without a comparator. *)
Fixpoint str_leb (a b : jsstring) : bool :=
  match a, b with
  | [], _ => true
  | _ :: _, [] => false
  | x :: a', y :: b' =>
      if N.ltb x y then true
      else if N.ltb y x then false
      else str_leb a' b'
  end.

Definition str_le (a b : jsstring) : Prop := str_leb a b = true.

(** [Array.prototype.sort] is stable; with a consistent ordering its result
    is the stable insertion of every element, from the last to the first. *)
Section Sort.
Context {A : Type}.
Variable leb : A -> A -> bool.

Fixpoint insert_sorted (x : A) (l : list A) : list A :=
  match l with
  | [] => [x]
  | y :: l' => if leb x y then x :: y :: l' else y :: insert_sorted x l'
  end.

Fixpoint sort_by (l : list A) : list A :=
  match l with
  | [] => []
  | x :: l' => insert_sorted x (sort_by l')
  end.

End Sort.

(** [arr.sort()] on an array of strings. *)
Definition sort (l : list jsstring) : list jsstring := sort_by str_leb l.

(** [arr.sort(cmp)]: [cmp a b <= 0] keeps [a] before [b]. *)
Definition sort_with {A : Type} (cmp : A -> A -> Z) (l : list A) : list A :=
  sort_by (fun a b => Z.leb (cmp a b) 0) l.

(** [arr.includes(k)] on an array of strings. *)
Definition includes (l : list jsstring) (k : jsstring) : bool :=
  existsb (str_eqb k) l.

(** [arr.join(sep)]. *)
Fixpoint join (sep : jsstring) (l : list jsstring) : jsstring :=
  match l with
  | [] => []
  | [s] => s
  | s :: l' => s ++ sep ++ join sep l'
  end.

(** [s.startsWith(p)]. *)
Fixpoint startsWith (s p : jsstring) : bool :=
  match p, s with
  | [], _ => true
  | _ :: _, [] => false
  | y :: p', x :: s' => unit_eqb x y && startsWith s' p'
  end.

(** [s.includes(p)] on strings: [p] occurs at some position of [s]. *)
Fixpoint str_includes (s p : jsstring) : bool :=
  startsWith s p ||
  match s with
  | [] => false
  | _ :: s' => str_includes s' p
  end.

(** [s.lastIndexOf(c)] for a one-unit pattern: the greatest index holding
    [c], or -1. *)
Fixpoint lastIndexOf_from (i : Z) (c : codeunit) (s : jsstring) : Z :=
  match s with
  | [] => (-1)%Z
  | x :: s' =>
      let r := lastIndexOf_from (i + 1)%Z c s' in
      if (0 <=? r)%Z then r else if unit_eqb x c then i else (-1)%Z
  end.

Definition lastIndexOf (s : jsstring) (c : codeunit) : Z :=
  lastIndexOf_from 0%Z c s.

(** [s.slice(start)]: a negative start counts from the end and is clamped
    at 0; a start past the end gives the empty string. *)
Definition slice (s : jsstring) (start : Z) : jsstring :=
  let len := Z.of_nat (List.length s) in
  let from := if (start <? 0)%Z then Z.max (len + start) 0 else Z.min start len in
  skipn (Z.to_nat from) s.

(** Decimal digits of a natural number, most significant first. *)
Fixpoint uint_units (u : Decimal.uint) : jsstring :=
  match u with
  | Decimal.Nil => []
  | Decimal.D0 u' => 48 :: uint_units u'
  | Decimal.D1 u' => 49 :: uint_units u'
  | Decimal.D2 u' => 50 :: uint_units u'
  | Decimal.D3 u' => 51 :: uint_units u'
  | Decimal.D4 u' => 52 :: uint_units u'
  | Decimal.D5 u' => 53 :: uint_units u'
  | Decimal.D6 u' => 54 :: uint_units u'
  | Decimal.D7 u' => 55 :: uint_units u'
  | Decimal.D8 u' => 56 :: uint_units u'
  | Decimal.D9 u' => 57 :: uint_units u'
  end.

Definition natToString (n : N) : jsstring := uint_units (N.to_uint n).

(** [String(z)] for an integral Number below 10^21 in magnitude. *)
Definition intToString (z : Z) : jsstring :=
  if (z <? 0)%Z then 45 :: natToString (Z.to_N (- z)) else natToString (Z.to_N z).

(** WhiteSpace and LineTerminator code units: what [String.prototype.trim]
    removes and what [\s] matches. *)
Definition isWhiteSpace (c : codeunit) : bool :=
  ((9 <=? c) && (c <=? 13)) || (c =? 32) || (c =? 160) || (c =? 5760)
  || ((8192 <=? c) && (c <=? 8202)) || (c =? 8232) || (c =? 8233)
  || (c =? 8239) || (c =? 8287) || (c =? 12288) || (c =? 65279).

Fixpoint trimStart (s : jsstring) : jsstring :=
  match s with
  | [] => []
  | c :: s' => if isWhiteSpace c then trimStart s' else s
  end.

Definition trimEnd (s : jsstring) : jsstring := rev (trimStart (rev s)).

Definition trim (s : jsstring) : jsstring := trimEnd (trimStart s).

Definition isAscii (c : codeunit) : bool := c <? 128.

Definition asciiLower (c : codeunit) : codeunit :=
  if (65 <=? c) && (c <=? 90) then c + 32 else c.

(** [s.replace(/p+/g, r)] for a class [p] of code units: every maximal run
    of units in [p] becomes the single unit [r].  [inrun] tells that the
    previous unit was in [p]. *)
Fixpoint replace_runs (p : codeunit -> bool) (r : codeunit)
         (inrun : bool) (s : jsstring) : jsstring :=
  match s with
  | [] => []
  | c :: s' =>
      if p c then
        if inrun then replace_runs p r true s'
        else r :: replace_runs p r true s'
      else c :: replace_runs p r false s'
  end.

Section Lowercase.
(** Unicode default case conversion of a string holding a non-ASCII code
    unit; on ASCII strings [toLowerCase] only maps A-Z to a-z. *)
Variable unicodeLower : jsstring -> jsstring.

Definition toLowerCase (s : jsstring) : jsstring :=
  if forallb isAscii s then map asciiLower s else unicodeLower s.

End Lowercase.

End JS.

(* ===================================================================== *)
(** * services/geminiService.ts *)
(* ===================================================================== *)

Module GeminiService.
Import JS.

Definition hyphen : codeunit := 45.
Definition comma : codeunit := 44.

Definition isHyphen (c : codeunit) : bool := c =? hyphen.

(** The class [[a-z0-9-]]. *)
Definition isNameUnit (c : codeunit) : bool :=
  ((97 <=? c) && (c <=? 122)) || ((48 <=? c) && (c <=? 57)) || (c =? hyphen).

Definition isDigit (c : codeunit) : bool := (48 <=? c) && (c <=? 57).

(** The [-$] alternative of [/^-|-$/g]: a hyphen in last position goes. *)
Fixpoint dropLastHyphen (s : jsstring) : jsstring :=
  match s with
  | [] => []
  | c :: s' =>
      match s' with
      | [] => if isHyphen c then [] else [c]
      | _ :: _ => c :: dropLastHyphen s'
      end
  end.

(** [.replace(/^-|-$/g, '')]: the [^-] alternative consumes a hyphen in
    first position, and the scan goes on behind it. *)
Definition trimHyphens (s : jsstring) : jsstring :=
  match s with
  | [] => []
  | c :: s' => if isHyphen c then dropLastHyphen s' else dropLastHyphen s
  end.

(** [s.split(',')]. *)
Fixpoint split (sep : codeunit) (s : jsstring) : list jsstring :=
  match s with
  | [] => [[]]
  | c :: s' =>
      if unit_eqb c sep then [] :: split sep s'
      else match split sep s' with
           | h :: t => (c :: h) :: t
           | [] => [[c]]
           end
  end.

(** What the promise of [generateImageDetails] resolves to. *)
Record details := { filename : jsstring; keywords : list jsstring }.

(** The object [JSON.parse] gives for a reply that follows the response
    schema; [None] is an absent or null property. *)
Record response := {
  reply_filename : option jsstring;
  reply_keywords : option (list jsstring)
}.

(** A thrown value: an [Error] object with its [name] and [message], or any
    other value, with the text [JSON.stringify] gives for it ([None] when it
    gives [undefined]). *)
Inductive thrown :=
| ErrorObject (name message : jsstring)
| OtherValue (json : option jsstring).

Definition newError (message : jsstring) : thrown :=
  ErrorObject (lit "Error") message.

(** [Error.prototype.toString]. *)
Definition errorToString (name message : jsstring) : jsstring :=
  if truthy name then
    if truthy message then name ++ lit ": " ++ message else name
  else message.

(** [toBase64(file)]: the promise rejects, or resolves to the reader's
    result, a data URL when it is a string. *)
Inductive read_result :=
| ReadRejects (t : thrown)
| ReadGives (base64Data : option jsstring).

(** [ai.models.generateContent] followed by [JSON.parse(response.text)]:
    the request rejects; or reading the reply raises an [Error] of the
    engine (a [SyntaxError] of [JSON.parse], a [TypeError] for a reply that
    is not an object); or the reply parses. *)
Inductive api_result :=
| ApiRejects (t : thrown)
| ApiMalformed (name message : jsstring)
| ApiReplies (r : response).

(** What one call meets: the configuration, the file reader and the remote
    service. *)
Record call_env := {
  apiKeySet : bool;
  fileRead : read_result;
  api : api_result
}.

Inductive settled :=
| Resolved (d : details)
| Rejected (t : thrown).

Definition apiKeyMessage : jsstring :=
  lit "API key is not configured. Please set the API_KEY environment variable.".
Definition readFailureMessage : jsstring := lit "Failed to read image data.".
Definition invalidDataMessage : jsstring := lit "Invalid base64 data from file.".
Definition rateLimitMessage : jsstring :=
  lit "Rate limit exceeded. Please wait and retry.".
Definition genericMessage : jsstring :=
  lit "Failed to generate details from AI service.".

Definition hasRateLimitMarker (errorText : jsstring) : bool :=
  str_includes errorText (lit "429")
  || str_includes errorText (lit "resource_exhausted")
  || str_includes errorText (lit "rate limit").

Section Service.
Variable unicodeLower : jsstring -> jsstring.
(** The message of the [TypeError] the engine raises for a method call on
    [undefined]. *)
Variable undefinedCallMessage : jsstring.

(** Lines 74-80: the clean-up of the proposed title. *)
Definition cleanFilename (raw : jsstring) : jsstring :=
  trimHyphens
    (replace_runs isHyphen hyphen false
       (filter isNameUnit
          (replace_runs isWhiteSpace hyphen false
             (toLowerCase unicodeLower (trim raw))))).

(** Lines 84-94: the cleaned name, or [image-<Date.now()>] when nothing is
    left of it. *)
Definition resultFilename (raw : jsstring) (now : N) : jsstring :=
  let cleanedFilename := cleanFilename raw in
  if truthy cleanedFilename then cleanedFilename
  else lit "image-" ++ natToString now.

(** The text the [catch] block inspects, before lowercasing. *)
Definition failureText (error : thrown) : option jsstring :=
  match error with
  | ErrorObject name message => Some (errorToString name message)
  | OtherValue json => json
  end.

(** Lines 96-108: what the [catch] block throws in its turn. *)
Definition classifyFailure (error : thrown) : thrown :=
  match failureText error with
  | None => ErrorObject (lit "TypeError") undefinedCallMessage
  | Some text =>
      let errorText := toLowerCase unicodeLower text in
      if hasRateLimitMarker errorText then newError rateLimitMessage
      else newError genericMessage
  end.

(** What the [try] block does with the outcome of the request. *)
Definition requestDetails (outcome : api_result) (now : N) : settled :=
  match outcome with
  | ApiRejects t => Rejected (classifyFailure t)
  | ApiMalformed name message =>
      Rejected (classifyFailure (ErrorObject name message))
  | ApiReplies jsonResponse =>
      let raw := match reply_filename jsonResponse with
                 | Some s => s
                 | None => []
                 end in
      let keywords := match reply_keywords jsonResponse with
                      | Some ks => ks
                      | None => []
                      end in
      Resolved {| filename := resultFilename raw now; keywords := keywords |}
  end.

(** Lines 8-109.  The file, the word limit and the user's keywords only
    shape the prompt of the request, whose outcome [env] gives; [now] is
    [Date.now()] when the reply is read. *)
Definition generateImageDetails (env : call_env) (now : N) : settled :=
  if negb (apiKeySet env) then Rejected (newError apiKeyMessage)
  else
    match fileRead env with
    | ReadRejects t => Rejected t
    | ReadGives None => Rejected (newError readFailureMessage)
    | ReadGives (Some base64Data) =>
        match nth_error (split comma base64Data) 1 with
        | None | Some [] => Rejected (newError invalidDataMessage)
        | Some (_ :: _) => requestDetails (api env) now
        end
    end.

End Service.

End GeminiService.

(* ===================================================================== *)
(** * App.tsx: the item collection and its handlers *)
(* ===================================================================== *)

Module App.
Import JS.

Record File := {
  name : jsstring;
  type : jsstring;
  lastModified : Z
}.

Record ProcessedImage := {
  id : jsstring;
  file : File;
  imageUrl : jsstring;
  originalExtension : jsstring;
  suggestedName : jsstring;
  isLoading : bool;
  error : option jsstring;
  keywords : list jsstring
}.

(** The state [processedImages]. *)
Definition collection := list ProcessedImage.

(** Object spreads [{ ...img, field: v }]. *)
Definition withLoading (img : ProcessedImage) (l : bool) : ProcessedImage :=
  {| id := id img; file := file img; imageUrl := imageUrl img;
     originalExtension := originalExtension img;
     suggestedName := suggestedName img; isLoading := l;
     error := error img; keywords := keywords img |}.

Definition withError (img : ProcessedImage) (e : option jsstring) : ProcessedImage :=
  {| id := id img; file := file img; imageUrl := imageUrl img;
     originalExtension := originalExtension img;
     suggestedName := suggestedName img; isLoading := isLoading img;
     error := e; keywords := keywords img |}.

Definition withName (img : ProcessedImage) (n : jsstring) : ProcessedImage :=
  {| id := id img; file := file img; imageUrl := imageUrl img;
     originalExtension := originalExtension img;
     suggestedName := n; isLoading := isLoading img;
     error := error img; keywords := keywords img |}.

Definition withKeywords (img : ProcessedImage) (ks : list jsstring) : ProcessedImage :=
  {| id := id img; file := file img; imageUrl := imageUrl img;
     originalExtension := originalExtension img;
     suggestedName := suggestedName img; isLoading := isLoading img;
     error := error img; keywords := ks |}.

(** Line 33. *)
Definition successfulImages (processedImages : collection) : collection :=
  filter (fun img => truthy (suggestedName img)) processedImages.

(** One accepted file of an upload, with what the browser hands out for it:
    the text of [Math.random()] and the object URL. *)
Record upload := {
  upload_file : File;
  random : jsstring;
  objectUrl : jsstring
}.

Definition dot : codeunit := 46.

(** Line 50. *)
Definition fileExt (fileName : jsstring) : jsstring :=
  slice fileName (lastIndexOf fileName dot).

(** Line 52. *)
Definition freshId (f : File) (rnd : jsstring) : jsstring :=
  name f ++ lit "-" ++ intToString (lastModified f) ++ lit "-" ++ rnd.

Definition newImage (u : upload) : ProcessedImage :=
  let f := upload_file u in
  {| id := freshId f (random u);
     file := f;
     imageUrl := objectUrl u;
     originalExtension := fileExt (name f);
     suggestedName := [];
     isLoading := false;
     error := None;
     keywords := [] |}.

Definition isImageFile (u : upload) : bool :=
  startsWith (type (upload_file u)) (lit "image/").

Definition newImages (files : list upload) : collection :=
  map newImage (filter isImageFile files).

(** Lines 46-66. *)
Definition handleImageUpload (files : list upload) (prev : collection) : collection :=
  if (0 <? List.length (newImages files))%nat then prev ++ newImages files
  else prev.

Definition hasId (i : jsstring) (img : ProcessedImage) : bool :=
  str_eqb (id img) i.

(** Lines 72-74: the item goes in flight. *)
Definition markLoading (i : jsstring) (prev : collection) : collection :=
  map (fun img => if hasId i img then withError (withLoading img true) None else img) prev.

(** Lines 78-80: the success transition. *)
Definition applySuccess (i : jsstring) (d : GeminiService.details)
           (prev : collection) : collection :=
  map (fun img =>
         if hasId i img
         then withLoading
                (withKeywords (withName img (GeminiService.filename d))
                              (sort (GeminiService.keywords d)))
                false
         else img) prev.

(** Lines 83-85: the failure transition. *)
Definition applyFailure (i : jsstring) (errorMessage : jsstring)
           (prev : collection) : collection :=
  map (fun img =>
         if hasId i img then withError (withLoading img false) (Some errorMessage)
         else img) prev.

(** Line 82. *)
Definition errorMessageOf (err : GeminiService.thrown) : jsstring :=
  match err with
  | GeminiService.ErrorObject _ message => message
  | GeminiService.OtherValue _ => lit "An unknown error occurred."
  end.

(** Lines 76-86: what the controller does with the settled promise. *)
Definition applyResult (i : jsstring) (r : GeminiService.settled)
           (prev : collection) : collection :=
  match r with
  | GeminiService.Resolved d => applySuccess i d prev
  | GeminiService.Rejected err => applyFailure i (errorMessageOf err) prev
  end.

(** Lines 102-105. *)
Definition handleClearAll (prev : collection) : collection := [].

(** Lines 107-113. *)
Definition handleRemoveImage (i : jsstring) (prev : collection) : collection :=
  filter (fun img => negb (hasId i img)) prev.

(** Lines 115-119. *)
Definition handleNameChange (i newName : jsstring) (prev : collection) : collection :=
  map (fun img => if hasId i img then withName img newName else img) prev.

(** Lines 131-135, shared by the two handlers that add keywords. *)
Definition addTo (img : ProcessedImage) (keywordsToAdd : list jsstring) : ProcessedImage :=
  let newKeywords := filter (fun k => negb (includes (keywords img) k)) keywordsToAdd in
  if (0 <? List.length newKeywords)%nat
  then withKeywords img (sort (keywords img ++ newKeywords))
  else img.

(** Lines 128-139. *)
Definition handleAddKeywords (i : jsstring) (keywordsToAdd : list jsstring)
           (prev : collection) : collection :=
  map (fun img => if hasId i img then addTo img keywordsToAdd else img) prev.

(** Lines 141-159, on the collection the handler was rendered with;
    [confirmed] is the answer to [window.confirm]. *)
Definition handleAddKeywordsToAll (confirmed : bool) (keywordsToAdd : list jsstring)
           (prev : collection) : collection :=
  if (List.length keywordsToAdd =? 0)%nat
     || (List.length (successfulImages prev) =? 0)%nat
  then prev
  else if negb confirmed then prev
  else map (fun img =>
              if truthy (suggestedName img) then addTo img keywordsToAdd else img)
           prev.

(** Lines 161-169. *)
Definition handleRemoveKeyword (i keywordToRemove : jsstring)
           (prev : collection) : collection :=
  map (fun img =>
         if hasId i img
         then withKeywords img
                (filter (fun k => negb (str_eqb k keywordToRemove)) (keywords img))
         else img) prev.

(** What can happen to the collection between two steps of a run: the
    user's edits, and the two updates of a generation the user started for
    one item on its own. *)
Inductive action :=
| Upload (files : list upload)
| ClearAll
| RemoveImage (i : jsstring)
| NameChange (i newName : jsstring)
| AddKeywords (i : jsstring) (keywordsToAdd : list jsstring)
| AddKeywordsToAll (confirmed : bool) (keywordsToAdd : list jsstring)
| RemoveKeyword (i keywordToRemove : jsstring)
| GenerationStarts (i : jsstring)
| GenerationSettles (i : jsstring) (r : GeminiService.settled).

Definition perform (a : action) (prev : collection) : collection :=
  match a with
  | Upload files => handleImageUpload files prev
  | ClearAll => handleClearAll prev
  | RemoveImage i => handleRemoveImage i prev
  | NameChange i newName => handleNameChange i newName prev
  | AddKeywords i ks => handleAddKeywords i ks prev
  | AddKeywordsToAll confirmed ks => handleAddKeywordsToAll confirmed ks prev
  | RemoveKeyword i k => handleRemoveKeyword i k prev
  | GenerationStarts i => markLoading i prev
  | GenerationSettles i r => applyResult i r prev
  end.

Definition performAll (actions : list action) (prev : collection) : collection :=
  fold_left (fun c a => perform a c) actions prev.

(** The identities the uploads of a session coin, in order. *)
Definition coined (a : action) : list jsstring :=
  match a with
  | Upload files => map id (newImages files)
  | _ => []
  end.

Definition coinedAll (actions : list action) : list jsstring :=
  flat_map coined actions.

(** ** Export *)

Section Exports.
(** [String.prototype.localeCompare], the collation of the host locale. *)
Variable localeCompare : jsstring -> jsstring -> Z.

Definition quote : codeunit := 34.
Definition newline : codeunit := 10.

Definition byName (a b : ProcessedImage) : Z :=
  localeCompare (suggestedName a) (suggestedName b).

(** Lines 209-211. *)
Definition sortedData (processedImages : collection) : collection :=
  sort_with byName (successfulImages processedImages).

Definition csvHeader : jsstring := lit "New File Name,Keywords" ++ [newline].

(** Lines 215-217. *)
Definition csvRow (image : ProcessedImage) : jsstring :=
  let newName := [quote] ++ suggestedName image ++ originalExtension image ++ [quote] in
  let keywords := [quote] ++ join (lit ", ") (keywords image) ++ [quote] in
  newName ++ lit "," ++ keywords.

Definition csvRows (processedImages : collection) : list jsstring :=
  map csvRow (sortedData processedImages).

(** Lines 206-220: the content of the download, [None] when the handler
    returns without one. *)
Definition handleDownloadCsv (processedImages : collection) : option jsstring :=
  if (List.length (successfulImages processedImages) =? 0)%nat then None
  else Some (csvHeader ++ join [newline] (csvRows processedImages)).

End Exports.

(** Line 187: the name of an item's entry in the archive. *)
Definition newFilename (image : ProcessedImage) : jsstring :=
  suggestedName image ++ originalExtension image.

(** ** The controller and the batch run

    The handlers are asynchronous: while a call is awaited and while the
    pacing timer runs, the user acts on the collection.  A run is therefore
    played against the rounds of its environment, one per selected item. *)

Record call_record := {
  call_id : jsstring;
  started : N;
  finished : N
}.

Record world := {
  live : collection;
  clock : N;
  calls : list call_record
}.

Record round := {
  during_call : list action;
  env : GeminiService.call_env;
  latency : N;
  during_delay : list action;
  lateness : N
}.

Definition pacingInterval : N := 1100.

Section Controller.
Variable unicodeLower : jsstring -> jsstring.
Variable undefinedCallMessage : jsstring.

(** Lines 68-87.  [processedImages] is the collection of the render the
    handler belongs to; the updaters act on the live one. *)
Definition handleGenerateNameForImage (processedImages : collection)
           (i : jsstring) (r : round) (w : world) : world :=
  match find (hasId i) processedImages with
  | None => w
  | Some imageToProcess =>
      let inFlight := performAll (during_call r) (markLoading i (live w)) in
      let done := clock w + latency r in
      let result :=
        GeminiService.generateImageDetails unicodeLower undefinedCallMessage
                                           (env r) done in
      {| live := applyResult i result inFlight;
         clock := done;
         calls := calls w ++ [{| call_id := i; started := clock w; finished := done |}] |}
  end.

(** Line 98: the timer fires no earlier than its delay. *)
Definition pace (r : round) (w : world) : world :=
  {| live := performAll (during_delay r) (live w);
     clock := clock w + pacingInterval + lateness r;
     calls := calls w |}.

(** Line 90. *)
Definition toProcess (image : ProcessedImage) : bool :=
  negb (truthy (suggestedName image)) && negb (isLoading image).

(** Lines 92-99. *)
Fixpoint batchLoop (processedImages : collection) (rounds : nat -> round)
         (n : nat) (imagesToProcess : collection) (w : world) : world :=
  match imagesToProcess with
  | [] => w
  | image :: rest =>
      let r := rounds n in
      batchLoop processedImages rounds (S n) rest
        (pace r (handleGenerateNameForImage processedImages (id image) r w))
  end.

(** Lines 89-100, started on the live collection. *)
Definition handleGenerateAllNames (rounds : nat -> round) (w : world) : world :=
  let processedImages := live w in
  let imagesToProcess := filter toProcess processedImages in
  batchLoop processedImages rounds 0 imagesToProcess w.

End Controller.

(** ** Derived values and the remaining handlers *)

(** Lines 29-31. *)
Definition userKeywordList (userKeywords : jsstring) : list jsstring :=
  if truthy (trim userKeywords)
  then filter truthy (map trim (GeminiService.split GeminiService.comma userKeywords))
  else [].

(** [[...new Set(l)]]: the first occurrence of every element, in order;
    [seen] holds the elements met so far. *)
Fixpoint setOf (seen : list jsstring) (l : list jsstring) : list jsstring :=
  match l with
  | [] => []
  | k :: l' =>
      if includes seen k then setOf seen l' else k :: setOf (k :: seen) l'
  end.

(** Lines 35-39. *)
Definition allUniqueKeywords (processedImages : collection)
           (userKeywordList : list jsstring) : list jsstring :=
  let imageKeywords := flat_map keywords processedImages in
  let all := userKeywordList ++ imageKeywords in
  sort (setOf [] all).

(** Lines 41-43. *)
Definition renamedFilesList (processedImages : collection) : jsstring :=
  join (lit ", ") (map suggestedName (successfulImages processedImages)).

(** Lines 230-235: the text written to the clipboard, if any. *)
Definition handleCopyList (processedImages : collection) : option jsstring :=
  if truthy (renamedFilesList processedImages)
  then Some (renamedFilesList processedImages)
  else None.

(** Line 103: the object URLs [handleClearAll] revokes. *)
Definition revokedByClear (processedImages : collection) : list jsstring :=
  map imageUrl processedImages.

(** Lines 108-111: the object URLs [handleRemoveImage] revokes. *)
Definition revokedByRemove (i : jsstring) (processedImages : collection) : list jsstring :=
  match find (hasId i) processedImages with
  | Some imageToRemove => [imageUrl imageToRemove]
  | None => []
  end.

(** Lines 180-189: the calls of [zip.file], in order; [None] when the
    handler returns at once. *)
Definition archiveEntries (processedImages : collection)
  : option (list (jsstring * File)) :=
  if (List.length (successfulImages processedImages) =? 0)%nat then None
  else Some (map (fun image => (newFilename image, file image))
                 (successfulImages processedImages)).

(** Lines 245-248. *)
Definition imagesToProcessCount (processedImages : collection) : nat :=
  List.length (filter toProcess processedImages).

Definition successfulCount (processedImages : collection) : nat :=
  List.length (successfulImages processedImages).

Definition isProcessing (processedImages : collection) : bool :=
  existsb isLoading processedImages.

Definition imageBeingEdited (processedImages : collection)
           (editingImage : option ProcessedImage) : option ProcessedImage :=
  match editingImage with
  | Some e => find (hasId (id e)) processedImages
  | None => None
  end.

(** Line 325: the [disabled] attribute of the Generate All button. *)
Definition generateAllDisabled (processedImages : collection) : bool :=
  (imagesToProcessCount processedImages =? 0)%nat || isProcessing processedImages.

End App.

(* ===================================================================== *)
(** * components/KeywordAdder.tsx and components/GlobalKeywordAdder.tsx *)
(* ===================================================================== *)

(** The two pickers hold the same state and the same handlers; they differ
    in the list they offer and in the callback they are given. *)
Module KeywordAdder.
Import JS.

Record state := {
  isOpen : bool;
  selectedKeywords : list jsstring
}.

Definition initial : state := {| isOpen := false; selectedKeywords := [] |}.

(** KeywordAdder.tsx, lines 15-17. *)
Definition availableKeywords (userDefinedKeywords imageKeywords : list jsstring)
  : list jsstring :=
  filter (fun k => negb (includes imageKeywords k)) userDefinedKeywords.

(** Lines 34-40 (30-36 in GlobalKeywordAdder.tsx): the updater. *)
Definition handleCheckboxChange (keyword : jsstring) (prev : list jsstring)
  : list jsstring :=
  if includes prev keyword
  then filter (fun k => negb (str_eqb k keyword)) prev
  else prev ++ [keyword].

(** What the user does to a picker. *)
Inductive event :=
| ToggleOpen
| Check (keyword : jsstring)
| Submit
| ClickOutside.

(** One event: the next state, and the argument of the callback when the
    callback is called. *)
Definition step (e : event) (st : state) : state * option (list jsstring) :=
  match e with
  | ToggleOpen =>
      ({| isOpen := negb (isOpen st); selectedKeywords := selectedKeywords st |}, None)
  | Check keyword =>
      ({| isOpen := isOpen st;
          selectedKeywords := handleCheckboxChange keyword (selectedKeywords st) |},
       None)
  | Submit =>
      (initial,
       if (0 <? List.length (selectedKeywords st))%nat
       then Some (selectedKeywords st) else None)
  | ClickOutside =>
      (* the listener is registered while the list is open *)
      if isOpen st then (initial, None) else (st, None)
  end.

(** A sequence of events: the last state and the arguments of the calls of
    the callback, in order. *)
Fixpoint run (events : list event) (st : state) : state * list (list jsstring) :=
  match events with
  | [] => (st, [])
  | e :: events' =>
      let (st', call) := step e st in
      let (final, calls) := run events' st' in
      (final, match call with Some ks => ks :: calls | None => calls end)
  end.

End KeywordAdder.

(* ===================================================================== *)
(** * components/ImageItem.tsx *)
(* ===================================================================== *)

Module ImageItem.
Import JS App.

(** What [renderStatus] shows. *)
Inductive status :=
| Generating
| Failed (message : jsstring)
| NameEditor
| Waiting.

(** Lines 54-125. *)
Definition renderStatus (image : ProcessedImage) : status :=
  if isLoading image then Generating
  else
    let named := if truthy (suggestedName image) then NameEditor else Waiting in
    match error image with
    | Some e => if truthy e then Failed e else named
    | None => named
    end.

(** Lines 28-33: the text written to the clipboard, if any. *)
Definition handleCopy (image : ProcessedImage) : option jsstring :=
  if truthy (suggestedName image) && truthy (originalExtension image)
  then Some (suggestedName image ++ originalExtension image)
  else None.

(** Lines 35-45: the [href] and the [download] name of the link, if any. *)
Definition handleDownload (image : ProcessedImage) : option (jsstring * jsstring) :=
  if negb (truthy (suggestedName image)) || negb (truthy (originalExtension image))
  then None
  else Some (imageUrl image, suggestedName image ++ originalExtension image).

End ImageItem.

(* ===================================================================== *)
(** * The vocabulary of the specification *)
(* ===================================================================== *)

Module Spec.
Import JS GeminiService.

(** ** Names *)

Definition onlyNameUnits (s : jsstring) : Prop :=
  Forall (fun c => isNameUnit c = true) s.

Definition noLeadingHyphen (s : jsstring) : Prop :=
  forall t, s <> hyphen :: t.

Definition noTrailingHyphen (s : jsstring) : Prop :=
  forall p, s <> p ++ [hyphen].

Definition noDoubleHyphen (s : jsstring) : Prop :=
  forall p t, s <> p ++ hyphen :: hyphen :: t.

(** The pattern [image-<digits>]. *)
Definition fallbackPattern (s : jsstring) : Prop :=
  exists ds, ds <> [] /\ Forall (fun c => isDigit c = true) ds
             /\ s = lit "image-" ++ ds.

(** Executable counterparts, used by the proofs: [spaced prev s] holds when
    no two hyphens of [s] are adjacent, [prev] telling that a hyphen comes
    just before [s]. *)
Fixpoint spaced (prev : bool) (s : jsstring) : bool :=
  match s with
  | [] => true
  | c :: s' =>
      if isHyphen c then negb prev && spaced true s' else spaced false s'
  end.

Fixpoint endsWithHyphen (s : jsstring) : bool :=
  match s with
  | [] => false
  | c :: s' =>
      match s' with
      | [] => isHyphen c
      | _ :: _ => endsWithHyphen s'
      end
  end.

(** ** Keyword collections *)

Definition sortedAscending (ks : list jsstring) : Prop := Sorted str_le ks.

Definition allSorted (c : App.collection) : Prop :=
  Forall (fun img => sortedAscending (App.keywords img)) c.

Definition noDuplicates (c : App.collection) : Prop :=
  Forall (fun img => NoDup (App.keywords img)) c.

(** ** Transitions of an item *)

(** [b] is [a] up to the two status fields [isLoading] and [error]. *)
Definition sameButStatus (a b : App.ProcessedImage) : Prop :=
  App.id b = App.id a /\ App.file b = App.file a
  /\ App.imageUrl b = App.imageUrl a
  /\ App.originalExtension b = App.originalExtension a
  /\ App.suggestedName b = App.suggestedName a
  /\ App.keywords b = App.keywords a.

(** What a failure addressed to [i] does to one item. *)
Definition failureEffect (i msg : jsstring) (a b : App.ProcessedImage) : Prop :=
  (App.id a = i ->
     sameButStatus a b /\ App.isLoading b = false /\ App.error b = Some msg)
  /\ (App.id a <> i -> b = a).


(** The call gets as far as the request: the key is set and the file reads
    as a data URL with a payload. *)
Definition requestIssued (env : call_env) : bool :=
  apiKeySet env &&
  match fileRead env with
  | ReadGives (Some base64Data) =>
      match nth_error (split comma base64Data) 1 with
      | Some (_ :: _) => true
      | _ => false
      end
  | _ => false
  end.

(** ** Batch runs *)

(** The calls [cs] happen one after the other from time [t] on, each one
    settled before the next starts and [pacingInterval] at least between the
    two; the run is over at [stop], the interval after the last call
    included. *)
Fixpoint paced (t : N) (cs : list App.call_record) (stop : N) : Prop :=
  match cs with
  | [] => t <= stop
  | c :: cs' =>
      t <= App.started c /\ App.started c <= App.finished c
      /\ paced (App.finished c + App.pacingInterval) cs' stop
  end.

(** ** Identities *)

Definition distinctIds (c : App.collection) : Prop := NoDup (map App.id c).

(** ** Export *)

(** Rows in ascending order of the suggested name, for a collation. *)
Definition ascendingByName (localeCompare : jsstring -> jsstring -> Z)
           (rows : App.collection) : Prop :=
  StronglySorted
    (fun a b => (localeCompare (App.suggestedName a) (App.suggestedName b) <= 0)%Z)
    rows.

(** ** The service *)

(** The details a reply [r] read at time [now] resolves to: the reply's
    title cleaned, its keywords as they are, both empty when absent. *)
Definition repliedDetails (unicodeLower : jsstring -> jsstring)
           (r : response) (now : N) : details :=
  {| filename := resultFilename unicodeLower
                   (match reply_filename r with Some s => s | None => [] end) now;
     keywords := match reply_keywords r with Some ks => ks | None => [] end |}.

(** ** Pickers *)

Definition str_dec : forall a b : jsstring, {a = b} + {a <> b} :=
  list_eq_dec N.eq_dec.

(** The callback of the per-item picker, and of the bulk picker, called
    with each list the picker submits. *)
Definition feedAdd (i : jsstring) (calls : list (list jsstring))
           (c : App.collection) : App.collection :=
  fold_left (fun c ks => App.handleAddKeywords i ks c) calls c.

Definition feedBulk (confirmed : bool) (calls : list (list jsstring))
           (c : App.collection) : App.collection :=
  fold_left (fun c ks => App.handleAddKeywordsToAll confirmed ks c) calls c.

(** ** The user's keywords *)

(** A keyword as the list of the user's keywords holds them: not empty,
    without a comma, without white space at either end. *)
Definition cleanKeyword (k : jsstring) : Prop :=
  k <> [] /\ ~ In comma k /\ trim k = k.

(** No white space at either end. *)
Definition trimmed (t : jsstring) : Prop :=
  (forall c r, t = c :: r -> isWhiteSpace c = false)
  /\ (forall c r, rev t = c :: r -> isWhiteSpace c = false).

Definition blank (s : jsstring) : Prop :=
  Forall (fun c => isWhiteSpace c = true) s.

(** ** Runs without interference *)

(** Nothing else happens to the collection during the run. *)
Definition undisturbed (rounds : nat -> App.round) : Prop :=
  forall n, App.during_call (rounds n) = [] /\ App.during_delay (rounds n) = [].

(** The item is out of flight and has a name or an error, or else its
    identity is one of [pending]. *)
Definition settledOrPending (pending : list jsstring) (img : App.ProcessedImage) : Prop :=
  App.isLoading img = false
  /\ (App.suggestedName img <> [] \/ App.error img <> None
      \/ In (App.id img) pending).

(** The time [count] rounds take from round [n] on: each call, the pacing
    interval after it, and what the timer is late by. *)
Fixpoint elapsed (rounds : nat -> App.round) (n count : nat) : N :=
  match count with
  | O => 0
  | S count' =>
      App.latency (rounds n) + App.pacingInterval + App.lateness (rounds n)
      + elapsed rounds (S n) count'
  end.

(** ** Sessions *)

(** The list of keywords an update brings in has no duplicates. *)
Definition incomingDistinct (a : App.action) : Prop :=
  match a with
  | App.AddKeywords _ ks => NoDup ks
  | App.AddKeywordsToAll _ ks => NoDup ks
  | App.GenerationSettles _ (Resolved d) => NoDup (keywords d)
  | _ => True
  end.

(** The title a reply proposes, empty when it has none. *)
Definition proposedTitle (r : response) : jsstring :=
  match reply_filename r with
  | Some s => s
  | None => []
  end.

(** What the clean-up makes of the title [raw] read at time [now]: the
    cleaned title, well formed, or the fallback name when nothing is left. *)
Definition cleanedOrFallback (unicodeLower : jsstring -> jsstring)
           (raw : jsstring) (now : N) (f : jsstring) : Prop :=
  (cleanFilename unicodeLower raw <> []
   /\ f = cleanFilename unicodeLower raw
   /\ onlyNameUnits f /\ noLeadingHyphen f /\ noTrailingHyphen f
   /\ noDoubleHyphen f)
  \/ (cleanFilename unicodeLower raw = []
      /\ f = lit "image-" ++ natToString now
      /\ fallbackPattern f).

(** [ext] is the extension kept for a file named [fileName]: the rest of
    the name from its last dot on, or the last unit of a name without a
    dot; never empty for a name that is not empty. *)
Definition extensionOf (fileName ext : jsstring) : Prop :=
  (forall pre suf, fileName = pre ++ App.dot :: suf -> ~ In App.dot suf ->
                   ext = App.dot :: suf)
  /\ (~ In App.dot fileName ->
      forall pre c, fileName = pre ++ [c] -> ext = [c])
  /\ (fileName <> [] -> ext <> []).

(** A new item as an upload makes it for the accepted file [u]. *)
Definition uploadedAs (u : App.upload) (img : App.ProcessedImage) : Prop :=
  App.file img = App.upload_file u
  /\ App.id img = App.name (App.upload_file u) ++ lit "-"
                  ++ intToString (App.lastModified (App.upload_file u))
                  ++ lit "-" ++ App.random u
  /\ App.imageUrl img = App.objectUrl u
  /\ App.suggestedName img = [] /\ App.isLoading img = false
  /\ App.error img = None /\ App.keywords img = [].

End Spec.

(* ===================================================================== *)
(** * Sample data *)
(* ===================================================================== *)

Module Sample.
Import JS App.
Local Open Scope string_scope.

Definition catFile : File :=
  {| name := lit "cat.png"; type := lit "image/png";
     lastModified := 1700000000000 |}.

Definition readme : File :=
  {| name := lit "README"; type := lit "image/png";
     lastModified := 1700000000001 |}.

Definition catUpload : upload :=
  {| upload_file := catFile; random := lit "0.5"; objectUrl := lit "blob:1" |}.

(** The same file again, and the same draw. *)
Definition catAgain : upload :=
  {| upload_file := catFile; random := lit "0.5"; objectUrl := lit "blob:2" |}.

Definition catOther : upload :=
  {| upload_file := catFile; random := lit "0.25"; objectUrl := lit "blob:3" |}.

Definition cat : ProcessedImage := newImage catUpload.

Definition twoCats : GeminiService.details :=
  {| GeminiService.filename := lit "sleepy-cat";
     GeminiService.keywords := [lit "cat"; lit "cat"] |}.

Definition catDetails : GeminiService.details :=
  {| GeminiService.filename := lit "sleepy-cat";
     GeminiService.keywords := [lit "pet"; lit "cat"] |}.

Definition okEnv (o : GeminiService.api_result) : GeminiService.call_env :=
  {| GeminiService.apiKeySet := true;
     GeminiService.fileRead :=
       GeminiService.ReadGives (Some (lit "data:image/png;base64,iVBORw0KGgo="));
     GeminiService.api := o |}.

(** The service answers 429. *)
Definition tooMany : GeminiService.thrown :=
  GeminiService.ErrorObject (lit "ApiError")
    (lit "got status: 429 Too Many Requests. RESOURCE_EXHAUSTED").


(** An item generated before, with its name and keywords. *)
Definition namedCat : ProcessedImage :=
  {| id := id cat; file := file cat; imageUrl := imageUrl cat;
     originalExtension := originalExtension cat;
     suggestedName := lit "sleepy-cat"; isLoading := false; error := None;
     keywords := [lit "cat"; lit "pet"] |}.

(** The host's functions, for the examples: no case mapping beyond ASCII,
    and one engine's message. *)
Definition noUnicodeLower (s : jsstring) : jsstring := s.
Definition engineMessage : jsstring :=
  lit "Cannot read properties of undefined (reading 'toLowerCase')".

(** A collation for the examples: the order of the code units. *)
Definition codeUnitCompare (a b : jsstring) : Z :=
  if str_leb a b then (if str_leb b a then 0 else -1)%Z else 1%Z.

Definition cityLights : ProcessedImage :=
  {| id := lit "b.jpeg-2-0.75"; file := catFile; imageUrl := lit "blob:4";
     originalExtension := lit ".jpeg";
     suggestedName := lit "city-lights"; isLoading := false; error := None;
     keywords := [lit "city"; lit "night"] |}.

(** A session: three files are uploaded and a batch run is started; the
    service names the first and the third and answers 429 for the second;
    while the first call is awaited the user uploads a fourth file. *)
Definition upload_of (fileName rnd url : string) : upload :=
  {| upload_file := {| name := lit fileName; type := lit "image/jpeg";
                       lastModified := 1700000000000 |};
     random := lit rnd; objectUrl := lit url |}.

Definition threeUploads : list upload :=
  [upload_of "a.jpg" "0.11" "blob:a"; upload_of "b.jpg" "0.22" "blob:b";
   upload_of "c.jpg" "0.33" "blob:c"].

Definition reply (title : string) (ks : list string) : GeminiService.api_result :=
  GeminiService.ApiReplies
    {| GeminiService.reply_filename := Some (lit title);
       GeminiService.reply_keywords := Some (map lit ks) |}.

Definition quiet (o : GeminiService.api_result) (ms : N) : round :=
  {| during_call := []; env := okEnv o; latency := ms;
     during_delay := []; lateness := 0 |}.

Definition rounds (n : nat) : round :=
  match n with
  | O => {| during_call := [Upload [upload_of "d.jpg" "0.44" "blob:d"]];
            env := okEnv (reply "Sunset  Walk!" ["sea"; "dusk"; "Sea"]);
            latency := 800; during_delay := []; lateness := 3 |}
  | S O => quiet (GeminiService.ApiRejects tooMany) 120
  | _ => quiet (reply "city-lights" ["night"; "city"]) 950
  end.

Definition atStart : world :=
  {| live := handleImageUpload threeUploads []; clock := 1700000001000; calls := [] |}.

Definition afterBatch : world :=
  handleGenerateAllNames noUnicodeLower engineMessage rounds atStart.

(** The reader gives a data URL cut before its payload. *)
Definition noPayload : GeminiService.call_env :=
  {| GeminiService.apiKeySet := true;
     GeminiService.fileRead :=
       GeminiService.ReadGives (Some (lit "data:image/png;base64"));
     GeminiService.api := GeminiService.ApiRejects tooMany |}.

(** The service answers 429 to every call, and the user waits. *)
Definition allRejected (n : nat) : round :=
  quiet (GeminiService.ApiRejects tooMany) 120.

Definition readmeUpload : upload :=
  {| upload_file := readme; random := lit "0.5"; objectUrl := lit "blob:5" |}.

End Sample.

(* ===================================================================== *)
(** * Properties *)
(* ===================================================================== *)

Import JS.

(** Boolean tests on code units, turned into arithmetic. *)
Ltac units :=
  unfold GeminiService.isNameUnit, GeminiService.isDigit, GeminiService.isHyphen,
         GeminiService.hyphen, isWhiteSpace, isAscii, asciiLower, unit_eqb in *;
  repeat match goal with
         | H : _ = false |- _ => apply not_true_iff_false in H
         | |- _ = false => apply not_true_iff_false; intro
         end;
  rewrite ?orb_true_iff, ?andb_true_iff, ?N.leb_le, ?N.eqb_eq, ?N.ltb_lt in *;
  try lia.

(** ** Built-ins *)

Lemma str_eqb_eq (a b : jsstring) : str_eqb a b = true <-> a = b.
Proof.
  revert b; induction a as [|x a IH]; intros [|y b]; simpl; split;
    try congruence; try discriminate; auto.
  - rewrite andb_true_iff; intros [Hxy Hab].
    apply N.eqb_eq in Hxy; apply IH in Hab; congruence.
  - intros E; injection E as -> ->.
    rewrite andb_true_iff; split; [apply N.eqb_refl | now apply IH].
Qed.

Lemma str_eqb_refl (a : jsstring) : str_eqb a a = true.
Proof. now apply str_eqb_eq. Qed.

Lemma str_eqb_neq (a b : jsstring) : str_eqb a b = false <-> a <> b.
Proof.
  rewrite <- not_true_iff_false, str_eqb_eq; tauto.
Qed.

Lemma includes_In (l : list jsstring) (k : jsstring) :
  includes l k = true <-> In k l.
Proof.
  unfold includes; rewrite existsb_exists; split.
  - intros (x & Hx & E); apply str_eqb_eq in E; now subst.
  - intros H; exists k; split; [assumption | apply str_eqb_refl].
Qed.

Lemma trimStart_fixed (s : jsstring) :
  Forall (fun c => isWhiteSpace c = false) s -> trimStart s = s.
Proof.
  destruct s as [|c s]; simpl; [reflexivity|].
  intros H; inversion H; subst.
  match goal with E : isWhiteSpace c = false |- _ => now rewrite E end.
Qed.

Lemma trim_fixed (s : jsstring) :
  Forall (fun c => isWhiteSpace c = false) s -> trim s = s.
Proof.
  intros H; unfold trim, trimEnd.
  rewrite (trimStart_fixed s H), trimStart_fixed.
  - apply rev_involutive.
  - now apply Forall_rev.
Qed.

Lemma replace_runs_fixed p r b (s : jsstring) :
  Forall (fun c => p c = false) s -> replace_runs p r b s = s.
Proof.
  intros H; revert b; induction H as [|c s Hc _ IH]; intros b; simpl.
  - reflexivity.
  - now rewrite Hc, IH.
Qed.

Lemma replace_runs_Forall (P : codeunit -> Prop) p r b (s : jsstring) :
  P r -> Forall P s -> Forall P (replace_runs p r b s).
Proof.
  intros Hr H; revert b; induction H as [|c s Hc _ IH]; intros b; simpl.
  - constructor.
  - destruct (p c); [destruct b|]; auto.
Qed.

Lemma filter_fixed {A} (f : A -> bool) (l : list A) :
  Forall (fun x => f x = true) l -> filter f l = l.
Proof.
  induction 1 as [|x l Hx _ IH]; simpl; [reflexivity|].
  now rewrite Hx, IH.
Qed.

Lemma filter_Forall {A} (f : A -> bool) (l : list A) :
  Forall (fun x => f x = true) (filter f l).
Proof.
  apply Forall_forall; intros x Hx; now apply filter_In in Hx.
Qed.

Lemma uint_units_digits (u : Decimal.uint) :
  Forall (fun c => GeminiService.isDigit c = true) (uint_units u).
Proof.
  induction u; simpl; constructor; auto.
Qed.

Lemma natToString_digits (n : N) :
  Forall (fun c => GeminiService.isDigit c = true) (natToString n).
Proof. apply uint_units_digits. Qed.

Lemma natToString_nonempty (n : N) : natToString n <> [].
Proof.
  unfold natToString; destruct n as [|p]; simpl; [discriminate|].
  pose proof (Unsigned.to_uint_nonnil p) as H.
  destruct (Pos.to_uint p); simpl; congruence.
Qed.

(** ** The naming sanitizer *)

Section Sanitizer.
Import GeminiService Spec.
Variable unicodeLower : jsstring -> jsstring.

Let clean := cleanFilename unicodeLower.

Lemma nameUnit_not_space (s : jsstring) :
  onlyNameUnits s -> Forall (fun c => isWhiteSpace c = false) s.
Proof.
  apply Forall_impl; intros c Hc; units.
Qed.

Lemma nameUnit_lower (s : jsstring) :
  onlyNameUnits s -> toLowerCase unicodeLower s = s.
Proof.
  intros H; unfold toLowerCase.
  assert (Hascii : forallb isAscii s = true).
  { apply forallb_forall; intros c Hc.
    unfold onlyNameUnits in H; rewrite Forall_forall in H.
    specialize (H c Hc); units. }
  rewrite Hascii; clear Hascii.
  induction H as [|c s Hc _ IH]; simpl; [reflexivity|].
  rewrite IH; f_equal.
  unfold asciiLower.
  destruct ((65 <=? c) && (c <=? 90)) eqn:E; [|reflexivity].
  exfalso; units.
Qed.

Lemma collapse_spaced b (s : jsstring) :
  spaced b (replace_runs isHyphen hyphen b s) = true.
Proof.
  revert b; induction s as [|c s IH]; intros b; simpl; [reflexivity|].
  destruct (isHyphen c) eqn:Hc.
  - destruct b; simpl; apply IH.
  - simpl; rewrite Hc; apply IH.
Qed.

Lemma collapse_fixed b (s : jsstring) :
  spaced b s = true -> replace_runs isHyphen hyphen b s = s.
Proof.
  revert b; induction s as [|c s IH]; intros b; simpl; [reflexivity|].
  destruct (isHyphen c) eqn:Hc.
  - rewrite andb_true_iff; intros [Hb Hs].
    destruct b; [discriminate|].
    rewrite (IH true Hs); f_equal.
    unfold isHyphen in Hc; apply N.eqb_eq in Hc; now subst.
  - intros Hs; now rewrite (IH false Hs).
Qed.

Lemma spaced_weaken b (s : jsstring) : spaced b s = true -> spaced false s = true.
Proof.
  destruct s as [|c s]; simpl; [reflexivity|].
  destruct (isHyphen c); [|tauto].
  rewrite andb_true_iff; simpl; tauto.
Qed.

Lemma dropLastHyphen_Forall (P : codeunit -> Prop) (s : jsstring) :
  Forall P s -> Forall P (dropLastHyphen s).
Proof.
  induction 1 as [|c s Hc Hs IH]; simpl; [constructor|].
  destruct s; [destruct (isHyphen c)|]; auto.
Qed.

Lemma dropLastHyphen_spaced b (s : jsstring) :
  spaced b s = true -> spaced b (dropLastHyphen s) = true.
Proof.
  revert b; induction s as [|c s IH]; intros b; [reflexivity|].
  destruct s as [|d s].
  - simpl; destruct (isHyphen c) eqn:Hc; simpl; [reflexivity | now rewrite Hc].
  - change (dropLastHyphen (c :: d :: s)) with (c :: dropLastHyphen (d :: s)).
    change (spaced b (c :: d :: s)) with
      (if isHyphen c then negb b && spaced true (d :: s) else spaced false (d :: s)).
    change (spaced b (c :: dropLastHyphen (d :: s))) with
      (if isHyphen c then negb b && spaced true (dropLastHyphen (d :: s))
       else spaced false (dropLastHyphen (d :: s))).
    destruct (isHyphen c).
    + rewrite !andb_true_iff; intros [Hb Hs]; split; [assumption | now apply IH].
    + apply IH.
Qed.

Lemma dropLastHyphen_ends b (s : jsstring) :
  spaced b s = true -> endsWithHyphen (dropLastHyphen s) = false.
Proof.
  revert b; induction s as [|c s IH]; intros b; [reflexivity|].
  destruct s as [|d s].
  - simpl; destruct (isHyphen c) eqn:Hc; simpl; auto.
  - change (dropLastHyphen (c :: d :: s)) with (c :: dropLastHyphen (d :: s)).
    change (spaced b (c :: d :: s)) with
      (if isHyphen c then negb b && spaced true (d :: s) else spaced false (d :: s)).
    intros Hs.
    assert (Htail : exists b', spaced b' (d :: s) = true).
    { destruct (isHyphen c); [exists true | exists false]; auto.
      now apply andb_true_iff in Hs. }
    destruct Htail as [b' Hb'].
    specialize (IH b' Hb').
    destruct (dropLastHyphen (d :: s)) as [|e t] eqn:E.
    + (* the tail was a lone hyphen: then [c] is none *)
      simpl. simpl in E.
      destruct s as [|f s]; [|discriminate].
      destruct (isHyphen d) eqn:Hd; [|discriminate].
      destruct (isHyphen c) eqn:Hc; [|reflexivity].
      simpl in Hs; rewrite Hd in Hs; simpl in Hs.
      now rewrite andb_false_r in Hs.
    + exact IH.
Qed.

Lemma dropLastHyphen_fixed (s : jsstring) :
  endsWithHyphen s = false -> dropLastHyphen s = s.
Proof.
  induction s as [|c s IH]; [reflexivity|].
  destruct s as [|d s].
  - simpl; intros ->; reflexivity.
  - change (endsWithHyphen (c :: d :: s)) with (endsWithHyphen (d :: s)).
    change (dropLastHyphen (c :: d :: s)) with (c :: dropLastHyphen (d :: s)).
    intros H; now rewrite IH.
Qed.

Lemma trimHyphens_fixed (s : jsstring) :
  spaced true s = true -> endsWithHyphen s = false -> trimHyphens s = s.
Proof.
  destruct s as [|c s]; [reflexivity|].
  unfold trimHyphens; intros Hs He.
  simpl in Hs; destruct (isHyphen c); [discriminate|].
  now apply dropLastHyphen_fixed.
Qed.

(** The three facts the pipeline establishes. *)
Lemma clean_units (raw : jsstring) : onlyNameUnits (clean raw).
Proof.
  unfold clean, cleanFilename, trimHyphens.
  set (x := filter isNameUnit _).
  assert (Hx : onlyNameUnits x) by apply filter_Forall.
  assert (Hc : onlyNameUnits (replace_runs isHyphen hyphen false x)).
  { apply replace_runs_Forall; [reflexivity | assumption]. }
  destruct (replace_runs isHyphen hyphen false x) as [|c s]; [constructor|].
  destruct (isHyphen c).
  - apply dropLastHyphen_Forall; now inversion Hc.
  - now apply dropLastHyphen_Forall.
Qed.

Lemma clean_spaced (raw : jsstring) : spaced true (clean raw) = true.
Proof.
  unfold clean, cleanFilename, trimHyphens.
  set (x := filter isNameUnit _).
  pose proof (collapse_spaced false x) as Hc.
  destruct (replace_runs isHyphen hyphen false x) as [|c s]; [reflexivity|].
  destruct (isHyphen c) eqn:E.
  - apply dropLastHyphen_spaced. simpl in Hc; now rewrite E in Hc.
  - apply dropLastHyphen_spaced. simpl in Hc |- *; now rewrite E in Hc |- *.
Qed.

Lemma clean_ends (raw : jsstring) : endsWithHyphen (clean raw) = false.
Proof.
  unfold clean, cleanFilename, trimHyphens.
  set (x := filter isNameUnit _).
  pose proof (collapse_spaced false x) as Hc.
  destruct (replace_runs isHyphen hyphen false x) as [|c s]; [reflexivity|].
  destruct (isHyphen c) eqn:E.
  - apply dropLastHyphen_ends with (b := true).
    simpl in Hc; now rewrite E in Hc.
  - now apply dropLastHyphen_ends with (b := false).
Qed.

(** From the executable tests to the statements on strings. *)
Lemma spaced_noLeading (s : jsstring) : spaced true s = true -> noLeadingHyphen s.
Proof.
  intros H t ->; simpl in H; discriminate.
Qed.

Lemma spaced_noDouble b (s : jsstring) : spaced b s = true -> noDoubleHyphen s.
Proof.
  intros H p t ->; revert b H.
  induction p as [|c p IH]; intros b H.
  - simpl in H; now rewrite andb_false_r in H.
  - simpl in H; destruct (isHyphen c).
    + apply andb_true_iff in H; destruct H as [_ H]; now apply IH in H.
    + now apply IH in H.
Qed.

Lemma ends_noTrailing (s : jsstring) : endsWithHyphen s = false -> noTrailingHyphen s.
Proof.
  intros H p ->; induction p as [|c p IH].
  - simpl in H; discriminate.
  - apply IH. destruct p; exact H.
Qed.

(** The choice between the cleaned title and the fallback name: the
    cleaned title, when not empty, holds only units of [a-z0-9-], neither
    starts nor ends with a hyphen and has no two hyphens in a row; the
    fallback is [image-] followed by the decimal digits of the time. *)
Lemma resultFilename_shape (raw : jsstring) (now : N) :
  let f := resultFilename unicodeLower raw now in
  (cleanFilename unicodeLower raw <> []
   /\ f = cleanFilename unicodeLower raw
   /\ onlyNameUnits f /\ noLeadingHyphen f /\ noTrailingHyphen f
   /\ noDoubleHyphen f)
  \/ (cleanFilename unicodeLower raw = []
      /\ f = lit "image-" ++ natToString now
      /\ fallbackPattern f).
Proof.
  intros f; subst f; unfold resultFilename.
  fold clean.
  destruct (clean raw) as [|c s] eqn:E; simpl truthy; cbv iota.
  - right; repeat split.
    exists (natToString now); repeat split.
    + apply natToString_nonempty.
    + apply natToString_digits.
  - left; rewrite <- E; repeat split.
    + rewrite E; discriminate.
    + apply clean_units.
    + apply spaced_noLeading, clean_spaced.
    + apply ends_noTrailing, clean_ends.
    + apply spaced_noDouble with (b := true), clean_spaced.
Qed.

(** C4. Cleaning a cleaned name changes nothing. *)
Theorem cleanFilename_idempotent (raw : jsstring) :
  cleanFilename unicodeLower (cleanFilename unicodeLower raw)
  = cleanFilename unicodeLower raw.
Proof.
  change (clean (clean raw) = clean raw).
  generalize (clean_units raw) (clean_spaced raw) (clean_ends raw).
  generalize (clean raw); intros s Hu Hs He.
  unfold clean, cleanFilename.
  rewrite (trim_fixed s (nameUnit_not_space s Hu)).
  rewrite (nameUnit_lower s Hu).
  rewrite (replace_runs_fixed _ _ _ s (nameUnit_not_space s Hu)).
  rewrite (filter_fixed _ s Hu).
  rewrite (collapse_fixed false s (spaced_weaken _ _ Hs)).
  now apply trimHyphens_fixed.
Qed.

End Sanitizer.

(** ** Sorting *)

Section SortBy.
Context {A : Type}.
Variable leb : A -> A -> bool.
Hypothesis leb_total : forall a b, leb a b = true \/ leb b a = true.

Let le (a b : A) : Prop := leb a b = true.

Lemma insert_sorted_perm (x : A) (l : list A) :
  Permutation (insert_sorted leb x l) (x :: l).
Proof.
  induction l as [|y l IH]; simpl; [reflexivity|].
  destruct (leb x y); [reflexivity|].
  rewrite IH; apply perm_swap.
Qed.

Lemma sort_by_perm (l : list A) : Permutation (sort_by leb l) l.
Proof.
  induction l as [|x l IH]; simpl; [reflexivity|].
  rewrite insert_sorted_perm; now constructor.
Qed.

Lemma insert_sorted_Sorted (x : A) (l : list A) :
  Sorted le l -> Sorted le (insert_sorted leb x l).
Proof.
  induction 1 as [|y l Hl IH Hy]; simpl; [repeat constructor|].
  destruct (leb x y) eqn:E.
  - repeat constructor; assumption.
  - constructor; [assumption|].
    assert (Hyx : le y x) by (destruct (leb_total x y); [congruence | assumption]).
    destruct l as [|z l]; simpl.
    + now constructor.
    + destruct (leb x z); constructor; [assumption | now inversion Hy].
Qed.

Lemma sort_by_Sorted (l : list A) : Sorted le (sort_by leb l).
Proof.
  induction l as [|x l IH]; simpl; [constructor|].
  now apply insert_sorted_Sorted.
Qed.

End SortBy.

Lemma str_leb_total (a b : jsstring) : str_leb a b = true \/ str_leb b a = true.
Proof.
  revert b; induction a as [|x a IH]; intros [|y b]; simpl; auto.
  destruct (N.ltb_spec x y), (N.ltb_spec y x); auto; lia.
Qed.

Lemma str_leb_trans (a b c : jsstring) :
  str_leb a b = true -> str_leb b c = true -> str_leb a c = true.
Proof.
  revert b c; induction a as [|x a IH]; intros [|y b] [|z c]; simpl;
    try congruence.
  destruct (N.ltb_spec x y), (N.ltb_spec y x), (N.ltb_spec y z),
    (N.ltb_spec z y), (N.ltb_spec x z), (N.ltb_spec z x);
    try congruence; try lia; eauto.
Qed.

Lemma str_le_antisym (a b : jsstring) : str_le a b -> str_le b a -> a = b.
Proof.
  unfold str_le; revert b; induction a as [|x a IH]; intros [|y b]; simpl;
    try congruence.
  destruct (N.ltb_spec x y), (N.ltb_spec y x); try congruence; try lia.
  intros Hab Hba; f_equal; [lia | auto].
Qed.

Lemma sort_perm (l : list jsstring) : Permutation (sort l) l.
Proof. apply sort_by_perm. Qed.

Lemma sort_sorted (l : list jsstring) : Spec.sortedAscending (sort l).
Proof. apply sort_by_Sorted, str_leb_total. Qed.

Lemma sorted_strongly (l : list jsstring) :
  Spec.sortedAscending l -> StronglySorted str_le l.
Proof.
  apply Sorted_StronglySorted.
  intros a b c; apply str_leb_trans.
Qed.

Lemma sorted_filter (f : jsstring -> bool) (l : list jsstring) :
  Spec.sortedAscending l -> Spec.sortedAscending (filter f l).
Proof.
  intros H; apply StronglySorted_Sorted.
  apply sorted_strongly in H.
  induction H as [|x l Hl IH Hx]; simpl; [constructor|].
  destruct (f x); [|assumption].
  constructor; [assumption|].
  apply Forall_forall; intros y Hy.
  apply filter_In in Hy; destruct Hy as [Hy _].
  rewrite Forall_forall in Hx; now apply Hx.
Qed.

(** ** Keyword collections *)

Section Keywords.
Import App Spec.

Lemma Forall_map_if {A} (P : A -> Prop) (t : A -> bool) (f : A -> A) (l : list A) :
  (forall x, P x -> P (f x)) -> Forall P l ->
  Forall P (map (fun x => if t x then f x else x) l).
Proof.
  intros Hf H; induction H as [|x l Hx _ IH]; simpl; constructor; auto.
  destruct (t x); auto.
Qed.

Lemma addTo_sorted (img : ProcessedImage) (ks : list jsstring) :
  sortedAscending (keywords img) -> sortedAscending (keywords (addTo img ks)).
Proof.
  intros H; unfold addTo.
  destruct (0 <? _)%nat; [apply sort_sorted | exact H].
Qed.

Lemma addTo_nodup (img : ProcessedImage) (ks : list jsstring) :
  NoDup (keywords img) -> NoDup ks -> NoDup (keywords (addTo img ks)).
Proof.
  intros Himg Hks; unfold addTo.
  destruct (0 <? _)%nat; [|exact Himg].
  simpl. apply (Permutation_NoDup (Permutation_sym (sort_perm _))).
  apply NoDup_app; [assumption | now apply NoDup_filter |].
  intros k Hk Hin. apply filter_In in Hin; destruct Hin as [_ Hin].
  apply (proj2 (includes_In _ _)) in Hk. now rewrite Hk in Hin.
Qed.

Lemma bulk_unfold (P : collection -> Prop) b ks (c : collection) :
  P c ->
  P (map (fun img => if truthy (suggestedName img) then addTo img ks else img) c) ->
  P (handleAddKeywordsToAll b ks c).
Proof.
  intros Hc Hm; unfold handleAddKeywordsToAll.
  destruct (_ || _); [assumption|]. destruct (negb b); assumption.
Qed.

(** The four operations on keywords, one at a time. *)
Lemma keywords_each_operation (c : collection) :
  (allSorted c ->
     (forall i d, allSorted (applySuccess i d c))
     /\ (forall i ks, allSorted (handleAddKeywords i ks c))
     /\ (forall i k, allSorted (handleRemoveKeyword i k c))
     /\ (forall b ks, allSorted (handleAddKeywordsToAll b ks c)))
  /\ (noDuplicates c ->
     (forall i d, NoDup (GeminiService.keywords d) ->
                  noDuplicates (applySuccess i d c))
     /\ (forall i ks, NoDup ks -> noDuplicates (handleAddKeywords i ks c))
     /\ (forall i k, noDuplicates (handleRemoveKeyword i k c))
     /\ (forall b ks, NoDup ks -> noDuplicates (handleAddKeywordsToAll b ks c))).
Proof.
  split; intros H; repeat split; intros.
  - apply (Forall_map_if (fun img => sortedAscending (keywords img))); auto.
    intros; apply sort_sorted.
  - apply (Forall_map_if (fun img => sortedAscending (keywords img))); auto.
    intros; now apply addTo_sorted.
  - apply (Forall_map_if (fun img => sortedAscending (keywords img))); auto.
    intros; now apply sorted_filter.
  - apply bulk_unfold; [assumption|].
    apply (Forall_map_if (fun img => sortedAscending (keywords img))); auto.
    intros; now apply addTo_sorted.
  - apply (Forall_map_if (fun img => NoDup (keywords img))); auto.
    intros; simpl. now apply (Permutation_NoDup (Permutation_sym (sort_perm _))).
  - apply (Forall_map_if (fun img => NoDup (keywords img))); auto.
    intros; now apply addTo_nodup.
  - apply (Forall_map_if (fun img => NoDup (keywords img))); auto.
    intros; now apply NoDup_filter.
  - apply bulk_unfold; [assumption|].
    apply (Forall_map_if (fun img => NoDup (keywords img))); auto.
    intros; now apply addTo_nodup.
Qed.

(** The success transition stores the service's keywords sorted but as they
    come: a keyword the service names twice is stored twice. *)
Lemma success_keeps_duplicates :
  noDuplicates [Sample.cat] /\ allSorted [Sample.cat]
  /\ map keywords (applySuccess (id Sample.cat) Sample.twoCats [Sample.cat])
     = [[lit "cat"; lit "cat"]]
  /\ ~ noDuplicates (applySuccess (id Sample.cat) Sample.twoCats [Sample.cat]).
Proof.
  split; [repeat constructor|].
  split; [repeat constructor|].
  split; [reflexivity|].
  intros H; inversion H as [|x l Hx _]; subst.
  vm_compute in Hx. inversion Hx as [|k ks Hk _]; subst.
  apply Hk; now left.
Qed.

Lemma perform_sorted (a : action) (c : collection) :
  allSorted c -> allSorted (perform a c).
Proof.
  intros H; destruct (keywords_each_operation c) as [S _]; specialize (S H).
  destruct S as (S1 & S2 & S3 & S4).
  destruct a; simpl; auto.
  - unfold handleImageUpload; destruct (0 <? _)%nat; [|assumption].
    apply Forall_app; split; [assumption|].
    unfold newImages; apply Forall_forall; intros img Hin.
    apply in_map_iff in Hin; destruct Hin as (u & <- & _); constructor.
  - constructor.
  - unfold handleRemoveImage; apply Forall_forall; intros img Hin.
    apply filter_In in Hin; unfold allSorted in H; rewrite Forall_forall in H.
    now apply H.
  - now apply (Forall_map_if (fun img => sortedAscending (keywords img))).
  - now apply (Forall_map_if (fun img => sortedAscending (keywords img))).
  - destruct r; simpl; [apply S1|].
    now apply (Forall_map_if (fun img => sortedAscending (keywords img))).
Qed.

Lemma perform_noDuplicates (a : action) (c : collection) :
  incomingDistinct a -> noDuplicates c -> noDuplicates (perform a c).
Proof.
  intros Ha H; destruct (keywords_each_operation c) as [_ D]; specialize (D H).
  destruct D as (D1 & D2 & D3 & D4).
  destruct a; simpl in *; auto.
  - unfold handleImageUpload; destruct (0 <? _)%nat; [|assumption].
    apply Forall_app; split; [assumption|].
    unfold newImages; apply Forall_forall; intros img Hin.
    apply in_map_iff in Hin; destruct Hin as (u & <- & _); constructor.
  - constructor.
  - unfold handleRemoveImage; apply Forall_forall; intros img Hin.
    apply filter_In in Hin; unfold noDuplicates in H; rewrite Forall_forall in H.
    now apply H.
  - now apply (Forall_map_if (fun img => NoDup (keywords img))).
  - now apply (Forall_map_if (fun img => NoDup (keywords img))).
  - destruct r; simpl; [now apply D1|].
    now apply (Forall_map_if (fun img => NoDup (keywords img))).
Qed.

Lemma performAll_sorted (actions : list action) (c : collection) :
  allSorted c -> allSorted (performAll actions c).
Proof.
  revert c; induction actions as [|a l IH]; intros c H; simpl; [assumption|].
  now apply IH, perform_sorted.
Qed.

Lemma performAll_noDuplicates (actions : list action) (c : collection) :
  Forall incomingDistinct actions -> noDuplicates c ->
  noDuplicates (performAll actions c).
Proof.
  intros Ha; revert c; induction Ha as [|a l Ha _ IH]; intros c H; simpl;
    [assumption|].
  now apply IH, perform_noDuplicates.
Qed.

(** C1, as the code has it.  Sortedness is kept by the success transition,
    a per-item add, a per-item remove and a bulk application, whatever comes
    in, and holds on every collection a session can reach.  Freedom from
    duplicates is kept, not made: when no item has a duplicate before, none
    has one after a remove, nor after the other three when the list that
    comes in (the service's keywords, the keywords to add) has no duplicate
    itself; so it holds on every collection reached by updates whose
    incoming lists have no duplicates. *)
Theorem keywords_sorted_and_distinct (c : collection) :
  (allSorted c ->
     (forall i d, allSorted (applySuccess i d c))
     /\ (forall i ks, allSorted (handleAddKeywords i ks c))
     /\ (forall i k, allSorted (handleRemoveKeyword i k c))
     /\ (forall b ks, allSorted (handleAddKeywordsToAll b ks c)))
  /\ (noDuplicates c ->
     (forall i d, NoDup (GeminiService.keywords d) ->
                  noDuplicates (applySuccess i d c))
     /\ (forall i ks, NoDup ks -> noDuplicates (handleAddKeywords i ks c))
     /\ (forall i k, noDuplicates (handleRemoveKeyword i k c))
     /\ (forall b ks, NoDup ks -> noDuplicates (handleAddKeywordsToAll b ks c)))
  /\ (forall actions,
        allSorted (performAll actions [])
        /\ (Forall incomingDistinct actions ->
            noDuplicates (performAll actions []))).
Proof.
  destruct (keywords_each_operation c) as [S D].
  split; [exact S|]. split; [exact D|].
  intros actions; split.
  - apply performAll_sorted; constructor.
  - intros H; apply performAll_noDuplicates; [assumption | constructor].
Qed.

Lemma keywords_sorted_and_distinct_witness :
  allSorted [Sample.cat] /\ noDuplicates [Sample.cat]
  /\ allSorted (applySuccess (id Sample.cat) Sample.catDetails [Sample.cat])
  /\ noDuplicates (applySuccess (id Sample.cat) Sample.catDetails [Sample.cat]).
Proof.
  assert (Hs : allSorted [Sample.cat]) by (repeat constructor).
  assert (Hd : noDuplicates [Sample.cat]) by (repeat constructor).
  split; [exact Hs|]. split; [exact Hd|].
  destruct (keywords_sorted_and_distinct [Sample.cat]) as [S [D _]].
  split.
  - apply (proj1 (S Hs)).
  - apply (proj1 (D Hd)).
    vm_compute. constructor.
    + intros [E|[]]; discriminate E.
    + constructor; [intros [] | constructor].
Defined.

End Keywords.

(** ** The per-item controller *)

Section Transitions.
Import App Spec.

Lemma hasId_true (i : jsstring) (img : ProcessedImage) :
  hasId i img = true <-> id img = i.
Proof. apply str_eqb_eq. Qed.

Lemma hasId_false (i : jsstring) (img : ProcessedImage) :
  hasId i img = false <-> id img <> i.
Proof. apply str_eqb_neq. Qed.

Lemma find_id (i : jsstring) (c : collection) :
  In i (map id c) -> exists found, find (hasId i) c = Some found.
Proof.
  induction c as [|x c IH]; simpl; [intros []|].
  intros [E|H].
  - apply (proj2 (hasId_true i x)) in E; rewrite E; eauto.
  - destruct (hasId i x); eauto.
Qed.

(** An updater that rewrites the items named [i] leaves a collection
    without such an item as it is. *)
Lemma update_absent (i : jsstring) (f : ProcessedImage -> ProcessedImage)
      (c : collection) :
  ~ In i (map id c) ->
  map (fun img => if hasId i img then f img else img) c = c.
Proof.
  induction c as [|img c IH]; simpl; intros H; [reflexivity|].
  destruct (hasId i img) eqn:E.
  - apply hasId_true in E; tauto.
  - f_equal; apply IH; tauto.
Qed.

Lemma update_others (i : jsstring) (f : ProcessedImage -> ProcessedImage)
      (c : collection) (n : nat) (img : ProcessedImage) :
  nth_error c n = Some img -> id img <> i ->
  nth_error (map (fun img => if hasId i img then f img else img) c) n = Some img.
Proof.
  intros Hn Hi; rewrite nth_error_map, Hn; simpl.
  apply hasId_false in Hi; now rewrite Hi.
Qed.

Lemma update_ids (i : jsstring) (f : ProcessedImage -> ProcessedImage)
      (c : collection) :
  (forall img, id (f img) = id img) ->
  map id (map (fun img => if hasId i img then f img else img) c) = map id c.
Proof.
  intros Hf; rewrite map_map; apply map_ext; intros img.
  destruct (hasId i img); auto.
Qed.

Lemma applyResult_update (i : jsstring) (r : GeminiService.settled) :
  exists f, (forall img, id (f img) = id img)
            /\ forall c, applyResult i r c
                         = map (fun img => if hasId i img then f img else img) c.
Proof.
  destruct r as [d|err]; simpl.
  - exists (fun img =>
              withLoading
                (withKeywords (withName img (GeminiService.filename d))
                              (sort (GeminiService.keywords d)))
                false).
    split; reflexivity.
  - exists (fun img => withError (withLoading img false) (Some (errorMessageOf err))).
    split; reflexivity.
Qed.

Lemma removed_absent (i : jsstring) (c : collection) :
  ~ In i (map id (handleRemoveImage i c)).
Proof.
  rewrite in_map_iff; intros (img & E & Hin).
  apply filter_In in Hin; destruct Hin as [_ Hin].
  apply (proj2 (hasId_true i img)) in E; now rewrite E in Hin.
Qed.

(** C5. A result that arrives for an item no longer in the collection
    changes nothing, in particular after the item's removal; and a result
    addressed to one identity never adds, drops or reorders items nor
    touches an item of another identity. *)
Theorem result_for_absent_item (c : collection) (i : jsstring)
        (r : GeminiService.settled) :
  (~ In i (map id c) -> applyResult i r c = c)
  /\ applyResult i r (handleRemoveImage i c) = handleRemoveImage i c
  /\ map id (applyResult i r c) = map id c
  /\ (forall n img, nth_error c n = Some img -> id img <> i ->
                    nth_error (applyResult i r c) n = Some img).
Proof.
  destruct (applyResult_update i r) as (f & Hid & Hf).
  repeat split.
  - intros H; rewrite Hf; now apply update_absent.
  - rewrite Hf; apply update_absent, removed_absent.
  - rewrite Hf; now apply update_ids.
  - intros n img Hn Hi; rewrite Hf; now apply update_others.
Qed.

Lemma result_for_absent_item_witness :
  ~ In (id Sample.namedCat)
       (map id (handleRemoveImage (id Sample.namedCat)
                  [Sample.namedCat; Sample.cityLights]))
  /\ applyResult (id Sample.namedCat) (GeminiService.Resolved Sample.twoCats)
       (handleRemoveImage (id Sample.namedCat) [Sample.namedCat; Sample.cityLights])
     = [Sample.cityLights]
  /\ applyResult (id Sample.namedCat) (GeminiService.Rejected Sample.tooMany)
       (handleRemoveImage (id Sample.namedCat) [Sample.namedCat; Sample.cityLights])
     = [Sample.cityLights]
  /\ Sample.cityLights <> Sample.namedCat
  /\ nth_error (applyResult (id Sample.namedCat) (GeminiService.Rejected Sample.tooMany)
                  [Sample.namedCat; Sample.cityLights]) 1
     = Some Sample.cityLights
  /\ map error (applyResult (id Sample.namedCat) (GeminiService.Rejected Sample.tooMany)
                  [Sample.namedCat; Sample.cityLights])
     = [Some (lit "got status: 429 Too Many Requests. RESOURCE_EXHAUSTED"); None].
Proof.
  assert (Habsent : ~ In (id Sample.namedCat)
                        (map id (handleRemoveImage (id Sample.namedCat)
                                   [Sample.namedCat; Sample.cityLights]))).
  { vm_compute; intros [E|[]]; discriminate E. }
  assert (Hother : id Sample.cityLights <> id Sample.namedCat)
    by (vm_compute; discriminate).
  split; [exact Habsent|].
  split; [exact (proj1 (result_for_absent_item
                          (handleRemoveImage (id Sample.namedCat)
                             [Sample.namedCat; Sample.cityLights])
                          (id Sample.namedCat)
                          (GeminiService.Resolved Sample.twoCats)) Habsent)|].
  split; [exact (proj1 (result_for_absent_item
                          (handleRemoveImage (id Sample.namedCat)
                             [Sample.namedCat; Sample.cityLights])
                          (id Sample.namedCat)
                          (GeminiService.Rejected Sample.tooMany)) Habsent)|].
  split; [intros E; apply Hother; now rewrite E|].
  split; [|reflexivity].
  exact (proj2 (proj2 (proj2 (result_for_absent_item
                                [Sample.namedCat; Sample.cityLights]
                                (id Sample.namedCat)
                                (GeminiService.Rejected Sample.tooMany))))
               1%nat Sample.cityLights eq_refl Hother).
Defined.

Lemma failure_effect (i msg : jsstring) (c : collection) :
  Forall2 (failureEffect i msg) c (applyFailure i msg c).
Proof.
  induction c as [|img c IH]; simpl; constructor; [|exact IH].
  destruct (hasId i img) eqn:E; split; intros H.
  - repeat split.
  - apply hasId_true in E; contradiction.
  - apply hasId_false in E; contradiction.
  - reflexivity.
Qed.

Lemma successful_update (i : jsstring) (f : ProcessedImage -> ProcessedImage)
      (c : collection) :
  (forall img, suggestedName (f img) = suggestedName img) ->
  successfulImages (map (fun img => if hasId i img then f img else img) c)
  = map (fun img => if hasId i img then f img else img) (successfulImages c).
Proof.
  intros Hf; unfold successfulImages.
  induction c as [|img c IH]; simpl; [reflexivity|].
  destruct (hasId i img) eqn:E.
  - rewrite Hf. destruct (truthy (suggestedName img)); simpl; rewrite ?E, IH; reflexivity.
  - destruct (truthy (suggestedName img)); simpl; rewrite ?E, IH; reflexivity.
Qed.

(** C10. A failure leaves every field of every item but [isLoading] and
    [error] as it was, and so does putting the item in flight before: the
    name and the keywords of an earlier success survive a failed retry, and
    the successful items are the same ones. *)
Theorem failure_keeps_name_and_keywords (c : collection) (i msg : jsstring) :
  Forall2 (failureEffect i msg) c (applyFailure i msg c)
  /\ Forall2 sameButStatus c (applyFailure i msg (markLoading i c))
  /\ map suggestedName (applyFailure i msg (markLoading i c)) = map suggestedName c
  /\ map keywords (applyFailure i msg (markLoading i c)) = map keywords c
  /\ map suggestedName (successfulImages (applyFailure i msg (markLoading i c)))
     = map suggestedName (successfulImages c)
  /\ List.length (successfulImages (applyFailure i msg c))
     = List.length (successfulImages c).
Proof.
  split; [apply failure_effect|].
  split.
  { unfold applyFailure, markLoading; rewrite map_map.
    induction c as [|img c IH]; simpl; constructor; [|exact IH].
    destruct (hasId i img) eqn:E.
    - unfold hasId in *; simpl; rewrite E; repeat split.
    - rewrite E; repeat split. }
  split.
  { unfold applyFailure, markLoading; rewrite !map_map; apply map_ext.
    intros img; destruct (hasId i img) eqn:E.
    - unfold hasId in *; simpl; now rewrite E.
    - now rewrite E. }
  split.
  { unfold applyFailure, markLoading; rewrite !map_map; apply map_ext.
    intros img; destruct (hasId i img) eqn:E.
    - unfold hasId in *; simpl; now rewrite E.
    - now rewrite E. }
  split.
  { unfold applyFailure, markLoading.
    rewrite !successful_update by reflexivity.
    rewrite !map_map; apply map_ext.
    intros img; destruct (hasId i img) eqn:E.
    - unfold hasId in *; simpl; now rewrite E.
    - now rewrite E. }
  unfold applyFailure; rewrite successful_update by reflexivity.
  apply length_map.
Qed.

End Transitions.

(** ** Failures of the generation call *)

Section Failures.
Import App Spec GeminiService.
Variable unicodeLower : jsstring -> jsstring.
Variable undefinedCallMessage : jsstring.

Let generate := generateImageDetails unicodeLower undefinedCallMessage.
Let controller := handleGenerateNameForImage unicodeLower undefinedCallMessage.






End Failures.



(** ** The batch sequencer *)

Section Batch.
Import App Spec.
Variable unicodeLower : jsstring -> jsstring.
Variable undefinedCallMessage : jsstring.

Let controller := handleGenerateNameForImage unicodeLower undefinedCallMessage.
Let loop := batchLoop unicodeLower undefinedCallMessage.

Lemma find_present (img : ProcessedImage) (c : collection) :
  In img c -> exists found, find (hasId (id img)) c = Some found.
Proof. intros H; apply find_id; now apply in_map. Qed.

(** One call of the controller on an item of its own render: one more
    record, from the clock at the start to the clock at the end. *)
Lemma controller_call (processedImages : collection) (img : ProcessedImage)
      (r : round) (w : world) :
  In img processedImages ->
  let w' := controller processedImages (id img) r w in
  calls w' = calls w ++ [{| call_id := id img; started := clock w;
                            finished := clock w + latency r |}]
  /\ clock w' = clock w + latency r.
Proof.
  intros Hin; destruct (find_present img processedImages Hin) as [found Hf].
  unfold controller, handleGenerateNameForImage; rewrite Hf; simpl; auto.
Qed.

Lemma paced_earlier (t t' : N) (cs : list call_record) (stop : N) :
  t <= t' -> paced t' cs stop -> paced t cs stop.
Proof.
  destruct cs as [|c cs]; simpl; intros; [lia | intuition lia].
Qed.

Lemma loop_calls (processedImages : collection) (rounds : nat -> round)
      (todo : collection) :
  (forall img, In img todo -> In img processedImages) ->
  forall (n : nat) (w : world),
  exists issued,
    calls (loop processedImages rounds n todo w) = calls w ++ issued
    /\ map call_id issued = map id todo
    /\ paced (clock w) issued (clock (loop processedImages rounds n todo w)).
Proof.
  induction todo as [|image rest IH]; intros Hsub n w.
  - exists []; simpl; rewrite app_nil_r; repeat split; lia.
  - assert (Hin : In image processedImages) by (apply Hsub; now left).
    destruct (controller_call processedImages image (rounds n) w Hin) as [Hc Ht].
    cbv zeta in Hc, Ht.
    set (w1 := controller processedImages (id image) (rounds n) w) in *.
    destruct (IH (fun img H => Hsub img (or_intror H)) (S n) (pace (rounds n) w1))
      as (issued & Hcalls & Hids & Hpaced).
    exists ({| call_id := id image; started := clock w;
               finished := clock w + latency (rounds n) |} :: issued).
    change (loop processedImages rounds n (image :: rest) w)
      with (loop processedImages rounds (S n) rest (pace (rounds n) w1)).
    repeat split.
    + rewrite Hcalls; simpl; rewrite Hc, <- app_assoc; reflexivity.
    + simpl; now rewrite Hids.
    + simpl; lia.
    + simpl; lia.
    + simpl. apply paced_earlier with (t' := clock (pace (rounds n) w1));
        [simpl; rewrite Ht; lia | exact Hpaced].
Qed.

(** C2. A batch run selects, on the collection it is started on, the items
    without a name that are not in flight, and calls the generation service
    once for each of them, in the order of the collection: each call is
    settled before the next one starts, and 1100 ms at least lie between the
    two.  What the user does during the run, uploads included, and how the
    calls end, has no part in which calls are made. *)
Theorem batch_run_calls (rounds : nat -> round) (w : world) :
  let w' := handleGenerateAllNames unicodeLower undefinedCallMessage rounds w in
  (forall img, toProcess img = true <-> suggestedName img = [] /\ isLoading img = false)
  /\ pacingInterval = 1100
  /\ exists issued,
       calls w' = calls w ++ issued
       /\ map call_id issued = map id (filter toProcess (live w))
       /\ List.length issued = List.length (filter toProcess (live w))
       /\ paced (clock w) issued (clock w').
Proof.
  intros w'; split; [|split; [reflexivity|]].
  - intros img; unfold toProcess.
    destruct (suggestedName img), (isLoading img); simpl; split;
      intros; try discriminate; intuition discriminate.
  - destruct (loop_calls (live w) rounds (filter toProcess (live w))
                (fun img H => proj1 (proj1 (filter_In _ _ _) H)) 0%nat w)
      as (issued & Hc & Hi & Hp).
    exists issued; repeat split; try assumption.
    rewrite <- (length_map call_id), Hi; apply length_map.
Qed.

End Batch.

(** ** The extension kept at upload *)

Section Extension.
Import App Spec.

Lemma lastIndexOf_absent (i : Z) (c : codeunit) (s : jsstring) :
  ~ In c s -> lastIndexOf_from i c s = (-1)%Z.
Proof.
  revert i; induction s as [|x s IH]; intros i H; simpl; [reflexivity|].
  rewrite IH by (simpl in H; tauto); simpl.
  destruct (unit_eqb x c) eqn:E; [|reflexivity].
  apply N.eqb_eq in E; subst; simpl in H; tauto.
Qed.

Lemma lastIndexOf_last (i : Z) (c : codeunit) (pre suf : jsstring) :
  (0 <= i)%Z -> ~ In c suf ->
  lastIndexOf_from i c (pre ++ c :: suf) = (i + Z.of_nat (List.length pre))%Z.
Proof.
  revert i; induction pre as [|x pre IH]; intros i Hi Hsuf.
  - simpl. rewrite lastIndexOf_absent by assumption; simpl.
    unfold unit_eqb; rewrite N.eqb_refl; lia.
  - change (lastIndexOf_from i c ((x :: pre) ++ c :: suf)) with
      (let r := lastIndexOf_from (i + 1) c (pre ++ c :: suf) in
       if (0 <=? r)%Z then r else if unit_eqb x c then i else (-1)%Z).
    rewrite IH by (assumption || lia). cbv zeta.
    destruct (Z.leb_spec 0 (i + 1 + Z.of_nat (List.length pre))); simpl List.length; lia.
Qed.

Lemma skipn_prefix {A} (pre rest : list A) :
  skipn (List.length pre) (pre ++ rest) = rest.
Proof. induction pre; simpl; auto. Qed.

(** The extension of the item made for one file: for a name with a dot
    the rest of the name from its last dot on; for a name without one the
    last unit of the name. *)
Lemma extension_of_upload (u : upload) :
  let fileName := name (upload_file u) in
  let ext := originalExtension (newImage u) in
  (forall pre suf, fileName = pre ++ dot :: suf -> ~ In dot suf ->
                   ext = dot :: suf)
  /\ (~ In dot fileName ->
      forall pre c, fileName = pre ++ [c] -> ext = [c])
  /\ (fileName <> [] -> ext <> [])
  /\ (~ In dot fileName ->
      forall pre c newName, fileName = pre ++ [c] ->
        newFilename (withName (newImage u) newName) = newName ++ [c]).
Proof.
  intros fileName ext.
  assert (Hdot : forall pre suf, fileName = pre ++ dot :: suf -> ~ In dot suf ->
                                 ext = dot :: suf).
  { intros pre suf E Hsuf; subst ext; simpl; unfold fileExt, lastIndexOf.
    fold fileName; rewrite E.
    rewrite lastIndexOf_last by (assumption || lia).
    unfold slice. rewrite length_app. simpl List.length.
    destruct (Z.ltb_spec (0 + Z.of_nat (List.length pre)) 0); [lia|].
    rewrite Z.min_l by lia.
    replace (Z.to_nat (0 + Z.of_nat (List.length pre))) with (List.length pre) by lia.
    apply skipn_prefix. }
  assert (Hlast : ~ In dot fileName ->
                  forall pre c, fileName = pre ++ [c] -> ext = [c]).
  { intros Hno pre c E; subst ext; simpl; unfold fileExt, lastIndexOf.
    fold fileName. rewrite lastIndexOf_absent by assumption.
    rewrite E; unfold slice. rewrite length_app. simpl List.length.
    change (-1 <? 0)%Z with true; cbv iota.
    rewrite Z.max_l by lia.
    replace (Z.to_nat _) with (List.length pre) by lia.
    apply skipn_prefix. }
  split; [exact Hdot|]. split; [exact Hlast|]. split.
  - intros Hne.
    destruct (in_dec N.eq_dec dot fileName) as [Hin|Hno].
    + (* cut the name at its last dot *)
      assert (Hcut : exists pre suf, fileName = pre ++ dot :: suf /\ ~ In dot suf).
      { clear - Hin. induction fileName as [|x s IH]; [destruct Hin|].
        destruct (in_dec N.eq_dec dot s) as [Hs|Hs].
        - destruct (IH Hs) as (pre & suf & -> & H).
          exists (x :: pre), suf; split; [reflexivity | assumption].
        - destruct Hin as [->|Hin]; [|contradiction].
          exists [], s; split; [reflexivity | assumption]. }
      destruct Hcut as (pre & suf & E & Hsuf).
      rewrite (Hdot pre suf E Hsuf); discriminate.
    + destruct (exists_last Hne) as (pre & c & E).
      rewrite (Hlast Hno pre c E); discriminate.
  - intros Hno pre c newName E.
    unfold newFilename; simpl suggestedName.
    change (originalExtension (withName (newImage u) newName)) with ext.
    now rewrite (Hlast Hno pre c E).
Qed.

Lemma extension_of_upload_witness :
  originalExtension (newImage Sample.catUpload) = lit ".png"
  /\ originalExtension
       (newImage {| upload_file := Sample.readme; random := lit "0.5";
                    objectUrl := lit "blob:5" |}) = lit "E".
Proof.
  split.
  - apply (proj1 (extension_of_upload Sample.catUpload) (lit "cat") (lit "png"));
      [reflexivity|].
    vm_compute; intros H; repeat (destruct H as [H|H]; [discriminate H|]); exact H.
  - apply (proj1 (proj2 (extension_of_upload
                           {| upload_file := Sample.readme; random := lit "0.5";
                              objectUrl := lit "blob:5" |}))
             ) with (pre := lit "READM"); [|reflexivity].
    vm_compute; intros H; repeat (destruct H as [H|H]; [discriminate H|]); exact H.
Defined.

End Extension.

(** ** Identities *)

Section Identities.
Import App Spec.

Lemma ids_kept (t : ProcessedImage -> bool) (f : ProcessedImage -> ProcessedImage)
      (c : collection) :
  (forall img, id (f img) = id img) ->
  map id (map (fun img => if t img then f img else img) c) = map id c.
Proof.
  intros Hf; rewrite map_map; apply map_ext; intros img.
  destruct (t img); auto.
Qed.

Lemma addTo_id (img : ProcessedImage) (ks : list jsstring) :
  id (addTo img ks) = id img.
Proof. unfold addTo; destruct (0 <? _)%nat; reflexivity. Qed.

Lemma filter_ids_distinct (f : ProcessedImage -> bool) (c : collection)
      (rest : list jsstring) :
  NoDup (map id c ++ rest) -> NoDup (map id (filter f c) ++ rest).
Proof.
  induction c as [|img c IH]; simpl; [auto|].
  intros H; apply NoDup_cons_iff in H; destruct H as [Hnot H].
  destruct (f img); simpl; [|auto].
  constructor; [|auto].
  intros Hin; apply Hnot.
  apply in_app_or in Hin; apply in_or_app; destruct Hin as [Hin|Hin]; [left|now right].
  apply in_map_iff in Hin; destruct Hin as (x & E & Hx).
  apply filter_In in Hx; apply in_map_iff; exists x; tauto.
Qed.

(** What an update does to the identities: an upload appends the ones it
    coins, a removal or a clearing drops some, nothing else changes any. *)
Lemma perform_ids (a : action) (c : collection) :
  match a with
  | Upload _ => map id (perform a c) = map id c ++ coined a
  | ClearAll => perform a c = []
  | RemoveImage i => perform a c = filter (fun img => negb (hasId i img)) c
  | _ => map id (perform a c) = map id c
  end.
Proof.
  destruct a; simpl; try reflexivity.
  - unfold handleImageUpload.
    destruct (newImages files) as [|x l] eqn:E; simpl.
    + now rewrite app_nil_r.
    + now rewrite map_app.
  - apply ids_kept; reflexivity.
  - apply ids_kept; intros; apply addTo_id.
  - unfold handleAddKeywordsToAll.
    destruct (_ || _); [reflexivity|]. destruct (negb confirmed); [reflexivity|].
    rewrite map_map; apply map_ext; intros img.
    destruct (truthy _); [apply addTo_id | reflexivity].
  - apply ids_kept; reflexivity.
  - apply ids_kept; reflexivity.
  - destruct (applyResult_update i r) as (f & Hid & Hf).
    rewrite Hf; now apply ids_kept.
Qed.

Lemma perform_distinct (a : action) (c : collection) (rest : list jsstring) :
  NoDup (map id c ++ coined a ++ rest) -> NoDup (map id (perform a c) ++ rest).
Proof.
  pose proof (perform_ids a c) as H.
  destruct a; try (simpl coined; simpl app at 2; rewrite H; exact (fun x => x)).
  - rewrite H, <- app_assoc; exact (fun x => x).
  - rewrite H; simpl; apply NoDup_app_remove_l.
  - rewrite H; simpl; apply filter_ids_distinct.
Qed.

Lemma perform_incl (a : action) (c : collection) :
  incl (map id (perform a c)) (map id c ++ coined a).
Proof.
  pose proof (perform_ids a c) as H.
  destruct a; try (rewrite H; simpl; rewrite app_nil_r; apply incl_refl).
  - rewrite H; apply incl_refl.
  - rewrite H; intros x [].
  - rewrite H; simpl; rewrite app_nil_r.
    intros x Hx; apply in_map_iff in Hx; destruct Hx as (img & E & Hin).
    apply filter_In in Hin; apply in_map_iff; exists img; tauto.
Qed.

Lemma performAll_distinct (actions : list action) :
  forall (c : collection) (rest : list jsstring),
  NoDup (map id c ++ coinedAll actions ++ rest) ->
  NoDup (map id (performAll actions c) ++ rest).
Proof.
  induction actions as [|a l IH]; intros c rest H; simpl in *; [assumption|].
  apply IH, perform_distinct.
  now rewrite <- app_assoc in H.
Qed.

Lemma performAll_incl (actions : list action) :
  forall c : collection,
  incl (map id (performAll actions c)) (map id c ++ coinedAll actions).
Proof.
  induction actions as [|a l IH]; intros c; simpl.
  - rewrite app_nil_r; apply incl_refl.
  - intros x Hx; apply IH in Hx.
    apply in_app_or in Hx; rewrite app_assoc; apply in_or_app.
    destruct Hx as [Hx|Hx]; [left; now apply perform_incl | now right].
Qed.

Lemma performAll_app (l1 l2 : list action) (c : collection) :
  performAll (l1 ++ l2) c = performAll l2 (performAll l1 c).
Proof. apply fold_left_app. Qed.

Lemma coinedAll_app (l1 l2 : list action) :
  coinedAll (l1 ++ l2) = coinedAll l1 ++ coinedAll l2.
Proof. apply flat_map_app. Qed.

Lemma freshId_draw (f : File) (r1 r2 : jsstring) :
  freshId f r1 = freshId f r2 <-> r1 = r2.
Proof.
  split; [|now intros ->].
  unfold freshId; intros H.
  repeat apply app_inv_head in H; exact H.
Qed.

(** C8, as the code has it.  An identity is the file's name, its
    modification time and a draw of [Math.random], so two uploads of one
    file get one identity exactly when the draws are equal.  Nothing but an
    upload makes or changes an identity: as long as the identities the
    uploads coin are pairwise distinct, the live identities are pairwise
    distinct after every step of the session, and an identity whose item was
    removed does not come back. *)
Theorem identities_distinct (actions : list action) :
  NoDup (coinedAll actions) ->
  (forall past rest, actions = past ++ rest -> distinctIds (performAll past []))
  /\ (forall past rest i,
        actions = past ++ RemoveImage i :: rest ->
        In i (coinedAll past) ->
        ~ In i (map id (performAll actions [])))
  /\ (forall f r1 r2, freshId f r1 = freshId f r2 <-> r1 = r2).
Proof.
  intros H; split; [|split; [|apply freshId_draw]].
  - intros past rest ->. rewrite coinedAll_app in H.
    apply NoDup_app_remove_r in H.
    unfold distinctIds.
    rewrite <- (app_nil_r (map id (performAll past []))).
    apply performAll_distinct; simpl; now rewrite app_nil_r.
  - intros past rest i -> Hi Hlive.
    rewrite performAll_app in Hlive; simpl in Hlive.
    apply performAll_incl in Hlive; apply in_app_or in Hlive.
    destruct Hlive as [Hlive|Hlive].
    + now apply removed_absent in Hlive.
    + rewrite coinedAll_app in H; simpl in H.
      revert Hi Hlive H; generalize (coinedAll past) (coinedAll rest).
      intros l1 l2 H1 H2 H.
      induction l1 as [|x l1 IH]; [destruct H1|].
      simpl in H; apply NoDup_cons_iff in H; destruct H as [Hx H].
      destruct H1 as [->|H1]; [|auto].
      apply Hx, in_or_app; now right.
Qed.

(** The same file uploaded twice with the same draw: two items, one
    identity; and the identity of a removed item, coined again. *)
Lemma same_draw_same_identity :
  coinedAll [Upload [Sample.catUpload]; Upload [Sample.catAgain]]
  = [id Sample.cat; id Sample.cat]
  /\ ~ distinctIds (performAll [Upload [Sample.catUpload]; Upload [Sample.catAgain]] [])
  /\ In (id Sample.cat)
        (map id (performAll [Upload [Sample.catUpload]; RemoveImage (id Sample.cat);
                             Upload [Sample.catAgain]] [])).
Proof.
  split; [reflexivity|]. split.
  - intros H; unfold distinctIds in H.
    change (NoDup [id Sample.cat; id Sample.cat]) in H.
    apply NoDup_cons_iff in H; destruct H as [H _]; apply H; now left.
  - vm_compute; now left.
Qed.

Lemma identities_distinct_witness :
  NoDup (coinedAll [Upload [Sample.catUpload]; Upload [Sample.catOther]])
  /\ distinctIds (performAll [Upload [Sample.catUpload]; Upload [Sample.catOther]] []).
Proof.
  assert (H : NoDup (coinedAll [Upload [Sample.catUpload]; Upload [Sample.catOther]])).
  { vm_compute. constructor.
    - intros [E|[]]; discriminate E.
    - constructor; [intros [] | constructor]. }
  split; [exact H|].
  apply (proj1 (identities_distinct _ H)
               [Upload [Sample.catUpload]; Upload [Sample.catOther]] []).
  reflexivity.
Defined.

End Identities.

(** ** The tabular export *)

Section CsvExport.
Import App Spec.
Variable localeCompare : jsstring -> jsstring -> Z.
Hypothesis localeCompare_total :
  forall a b, (localeCompare a b <= 0)%Z \/ (localeCompare b a <= 0)%Z.
Hypothesis localeCompare_trans :
  forall a b c, (localeCompare a b <= 0)%Z -> (localeCompare b c <= 0)%Z ->
                (localeCompare a c <= 0)%Z.

Lemma sortedData_perm (c : collection) :
  Permutation (sortedData localeCompare c) (successfulImages c).
Proof. apply sort_by_perm. Qed.

Lemma sortedData_ascending (c : collection) :
  ascendingByName localeCompare (sortedData localeCompare c).
Proof.
  unfold ascendingByName, sortedData, sort_with.
  set (leb := fun a b => (byName localeCompare a b <=? 0)%Z).
  assert (S : Sorted (fun a b => leb a b = true) (sort_by leb (successfulImages c))).
  { apply sort_by_Sorted; intros a b; unfold leb, byName.
    rewrite !Z.leb_le; apply localeCompare_total. }
  apply Sorted_StronglySorted.
  - intros x y z; apply localeCompare_trans.
  - revert S; generalize (sort_by leb (successfulImages c)).
    induction 1 as [|x l _ IH Hx]; constructor; [exact IH|].
    destruct Hx as [|y l Hxy]; constructor.
    unfold leb, byName in Hxy; now apply Z.leb_le in Hxy.
Qed.

Lemma successful_iff (c : collection) (img : ProcessedImage) :
  In img (successfulImages c) <-> In img c /\ suggestedName img <> [].
Proof.
  unfold successfulImages; rewrite filter_In.
  destruct (suggestedName img); simpl; intuition congruence.
Qed.

(** C7.  The successful items are the items with a name that is not empty,
    whatever their other fields.  Every export the handler produces is the
    header line followed by one row for each successful item, the rows
    joined by line feeds and in ascending order of the names for the host's
    collation; a row is the name followed by the extension, in quotes, a
    comma, and the keywords joined by a comma and a space, in quotes.  An
    export is produced whenever some item is successful, which is when the
    button is enabled. *)
Theorem csv_export (c : collection) :
  (forall img, In img (successfulImages c) <-> In img c /\ suggestedName img <> [])
  /\ (forall csv,
        handleDownloadCsv localeCompare c = Some csv ->
        csv = lit "New File Name,Keywords" ++ [newline]
              ++ join [newline] (map csvRow (sortedData localeCompare c)))
  /\ (successfulImages c = [] -> handleDownloadCsv localeCompare c = None)
  /\ (successfulImages c <> [] ->
      handleDownloadCsv localeCompare c
      = Some (lit "New File Name,Keywords" ++ [newline]
              ++ join [newline] (map csvRow (sortedData localeCompare c))))
  /\ Permutation (sortedData localeCompare c) (successfulImages c)
  /\ List.length (map csvRow (sortedData localeCompare c))
     = List.length (successfulImages c)
  /\ ascendingByName localeCompare (sortedData localeCompare c)
  /\ (forall image,
        csvRow image
        = [quote] ++ (suggestedName image ++ originalExtension image) ++ [quote]
          ++ lit "," ++ [quote] ++ join (lit ", ") (keywords image) ++ [quote]).
Proof.
  split; [apply successful_iff|].
  split.
  { intros csv; unfold handleDownloadCsv, csvRows, csvHeader.
    destruct (List.length (successfulImages c) =? 0)%nat; [discriminate|].
    intros H; injection H as E; rewrite <- E; symmetry; apply app_assoc. }
  split; [intros E; unfold handleDownloadCsv; now rewrite E|].
  split.
  { intros H; unfold handleDownloadCsv, csvRows, csvHeader.
    destruct (successfulImages c); [congruence|].
    simpl (List.length _ =? 0)%nat; cbv iota.
    now rewrite <- app_assoc. }
  split; [apply sortedData_perm|].
  split; [rewrite length_map; apply Permutation_length, sortedData_perm|].
  split; [apply sortedData_ascending|].
  intros image; unfold csvRow; cbv zeta.
  now rewrite <- !app_assoc.
Qed.

End CsvExport.

Lemma codeUnitCompare_le (a b : jsstring) :
  (Sample.codeUnitCompare a b <= 0)%Z <-> str_leb a b = true.
Proof.
  unfold Sample.codeUnitCompare.
  destruct (str_leb a b), (str_leb b a); split; intros; try lia; congruence.
Qed.

(** Called without an item that has a name, the handler returns at
    once. *)
Lemma no_export_without_names :
  App.handleDownloadCsv Sample.codeUnitCompare [] = None
  /\ App.handleDownloadCsv Sample.codeUnitCompare [Sample.cat] = None.
Proof. split; reflexivity. Qed.

Lemma csv_export_witness :
  App.handleDownloadCsv Sample.codeUnitCompare
    [Sample.namedCat; Sample.cat; Sample.cityLights]
  = Some (lit "New File Name,Keywords" ++ [App.newline]
          ++ join [App.newline]
               (map App.csvRow
                    (App.sortedData Sample.codeUnitCompare
                       [Sample.namedCat; Sample.cat; Sample.cityLights])))
  /\ map App.suggestedName
         (App.sortedData Sample.codeUnitCompare
            [Sample.namedCat; Sample.cat; Sample.cityLights])
     = [lit "city-lights"; lit "sleepy-cat"].
Proof.
  split; [|reflexivity].
  apply (csv_export Sample.codeUnitCompare).
  - intros a b; rewrite !codeUnitCompare_le; apply str_leb_total.
  - intros a b c; rewrite !codeUnitCompare_le; apply str_leb_trans.
  - discriminate.
Defined.

(** ** Scenarios *)

Section Scenarios.
Import App.
Local Open Scope string_scope.

Example clean_title :
  GeminiService.cleanFilename Sample.noUnicodeLower (lit "  Hello  World!! -- x_y ")
  = lit "hello-world-xy".
Proof. reflexivity. Qed.

Example clean_hyphens_only :
  GeminiService.resultFilename Sample.noUnicodeLower (lit " - ") 1700000000000
  = lit "image-1700000000000".
Proof. reflexivity. Qed.

Example extension_examples :
  map fileExt [lit "a.b.jpeg"; lit "README"; lit ".gitignore"; lit "photo."; lit ""]
  = [lit ".jpeg"; lit "E"; lit ".gitignore"; lit "."; lit ""].
Proof. reflexivity. Qed.

(** Three uploads, a batch run, a fourth upload during the first call: three
    calls in the order of the collection, the fourth item left alone. *)
Example batch_calls :
  map (fun c => (call_id c, started c, finished c)) (calls Sample.afterBatch)
  = [(lit "a.jpg-1700000000000-0.11", 1700000001000, 1700000001800);
     (lit "b.jpg-1700000000000-0.22", 1700000002903, 1700000003023);
     (lit "c.jpg-1700000000000-0.33", 1700000004123, 1700000005073)].
Proof. vm_compute; reflexivity. Qed.

Example batch_outcome :
  map (fun img => (suggestedName img, isLoading img, error img, keywords img))
      (live Sample.afterBatch)
  = [(lit "sunset-walk", false, None, [lit "Sea"; lit "dusk"; lit "sea"]);
     ([], false, Some GeminiService.rateLimitMessage, []);
     (lit "city-lights", false, None, [lit "city"; lit "night"]);
     ([], false, None, [])].
Proof. vm_compute; reflexivity. Qed.

(** Two data rows, [city-lights] before [sunset-walk]. *)
Example batch_csv :
  handleDownloadCsv Sample.codeUnitCompare (live Sample.afterBatch)
  = Some (lit "New File Name,Keywords" ++ [newline]
          ++ [quote] ++ lit "city-lights.jpg" ++ [quote] ++ lit ","
          ++ [quote] ++ lit "city, night" ++ [quote] ++ [newline]
          ++ [quote] ++ lit "sunset-walk.jpg" ++ [quote] ++ lit ","
          ++ [quote] ++ lit "Sea, dusk, sea" ++ [quote])%list.
Proof. vm_compute; reflexivity. Qed.

Example remove_keyword :
  map keywords (handleRemoveKeyword (id Sample.namedCat) (lit "cat") [Sample.namedCat])
  = [[lit "pet"]].
Proof. reflexivity. Qed.

(** A bulk application: the item that has the keyword is unchanged, the
    item without a name is skipped, the other one gains it, sorted. *)
Example bulk_travel :
  map keywords
      (handleAddKeywordsToAll true [lit "night"]
         [Sample.namedCat; Sample.cat; Sample.cityLights])
  = [[lit "cat"; lit "night"; lit "pet"]; []; [lit "city"; lit "night"]].
Proof. vm_compute; reflexivity. Qed.

(** A failed retry of a named item: the name and the keywords stay. *)
Example failed_retry :
  map (fun img => (suggestedName img, keywords img, error img))
      (applyFailure (id Sample.namedCat) GeminiService.genericMessage
                    (markLoading (id Sample.namedCat) [Sample.namedCat]))
  = [(lit "sleepy-cat", [lit "cat"; lit "pet"], Some GeminiService.genericMessage)].
Proof. reflexivity. Qed.

End Scenarios.

(* ===================================================================== *)
(** * Further properties of the handlers *)
(* ===================================================================== *)

Lemma filter_none {A} (f : A -> bool) (l : list A) :
  (forall x, In x l -> f x = false) -> filter f l = [].
Proof.
  induction l as [|x l IH]; simpl; intros H; [reflexivity|].
  rewrite (H x (or_introl eq_refl)); apply IH; auto.
Qed.

(** ** Uploads *)

Section Uploads.
Import App Spec.

Lemma uploaded_items (files : list upload) :
  Forall2 uploadedAs files (map newImage files).
Proof.
  induction files as [|u files IH]; simpl; constructor; [|exact IH].
  repeat split.
Qed.

(** X1. An upload keeps the collection as a prefix and appends, for the
    files whose type starts with [image/], in their order, one item each:
    the item of a file holds that file, the identity coined from its name,
    its modification time and the draw, and its object URL, and waits for
    generation without name, keywords or error.  An upload without any such
    file changes nothing. *)
Theorem upload_appends (files : list upload) (prev : collection) :
  exists added,
    handleImageUpload files prev = prev ++ added
    /\ Forall2 uploadedAs
               (filter (fun u => startsWith (type (upload_file u)) (lit "image/")) files)
               added
    /\ (Forall (fun u => startsWith (type (upload_file u)) (lit "image/") = false) files ->
        handleImageUpload files prev = prev).
Proof.
  exists (newImages files).
  assert (E : handleImageUpload files prev = prev ++ newImages files).
  { unfold handleImageUpload.
    destruct (newImages files); simpl; [now rewrite app_nil_r | reflexivity]. }
  split; [exact E|]. split; [apply uploaded_items|].
  intros H; rewrite E; unfold newImages.
  rewrite filter_none; [apply app_nil_r|].
  rewrite Forall_forall in H; exact H.
Qed.

End Uploads.

(** ** Name edits *)

Section NameEdits.
Import App.

Lemma nth_update (i : jsstring) (f : ProcessedImage -> ProcessedImage)
      (c : collection) (n : nat) (img : ProcessedImage) :
  nth_error c n = Some img -> id img = i ->
  nth_error (map (fun img => if hasId i img then f img else img) c) n
  = Some (f img).
Proof.
  intros Hn Hi; rewrite nth_error_map, Hn; simpl.
  apply (proj2 (hasId_true i img)) in Hi; now rewrite Hi.
Qed.

(** X2. When the name field of an item is emptied, the item leaves the
    successful ones, its name editor gives way to the waiting notice, and
    the next batch run selects it again. *)
Theorem emptied_name_requeues (i : jsstring) (c : collection) :
  (forall img, In img (successfulImages (handleNameChange i [] c)) -> id img <> i)
  /\ (forall n img,
        nth_error c n = Some img -> id img = i ->
        ImageItem.renderStatus img = ImageItem.NameEditor ->
        exists img',
          nth_error (handleNameChange i [] c) n = Some img'
          /\ ImageItem.renderStatus img' = ImageItem.Waiting
          /\ toProcess img' = true).
Proof.
  split.
  - intros img Hin Hi.
    unfold successfulImages in Hin; apply filter_In in Hin.
    destruct Hin as [Hin Hname].
    unfold handleNameChange in Hin; apply in_map_iff in Hin.
    destruct Hin as (x & E & _).
    destruct (hasId i x) eqn:Hx.
    + subst img; discriminate Hname.
    + subst img; apply hasId_false in Hx; contradiction.
  - intros n img Hn Hi Hview.
    exists (withName img []); split;
      [now apply (nth_update i (fun img => withName img []))|].
    unfold ImageItem.renderStatus, toProcess in *; simpl.
    destruct (isLoading img); [discriminate|].
    destruct (error img) as [e|]; [destruct (truthy e); [discriminate|]|];
      split; reflexivity.
Qed.

Lemma emptied_name_requeues_witness :
  exists img',
    nth_error (handleNameChange (id Sample.namedCat) [] [Sample.namedCat]) 0
    = Some img'
    /\ ImageItem.renderStatus img' = ImageItem.Waiting
    /\ toProcess img' = true.
Proof.
  apply (proj2 (emptied_name_requeues (id Sample.namedCat) [Sample.namedCat])
               0%nat Sample.namedCat); reflexivity.
Defined.

Lemma addTo_withName (img : ProcessedImage) (n : jsstring) (ks : list jsstring) :
  addTo (withName img n) ks = withName (addTo img ks) n.
Proof. unfold addTo; simpl; destruct (0 <? _)%nat; reflexivity. Qed.

(** X3. A name edit and a keyword edit of single items commute, whatever
    the two items are. *)
Theorem name_and_keyword_edits_commute (i j newName k : jsstring)
        (ks : list jsstring) (c : collection) :
  handleNameChange i newName (handleRemoveKeyword j k c)
  = handleRemoveKeyword j k (handleNameChange i newName c)
  /\ handleNameChange i newName (handleAddKeywords j ks c)
     = handleAddKeywords j ks (handleNameChange i newName c).
Proof.
  unfold handleNameChange, handleRemoveKeyword, handleAddKeywords.
  split; rewrite !map_map; apply map_ext; intros img.
  - destruct (hasId j img) eqn:Hj, (hasId i img) eqn:Hi;
      unfold hasId in *; simpl; rewrite ?Hi, ?Hj; reflexivity.
  - assert (H1 : hasId i (addTo img ks) = hasId i img)
      by (unfold hasId; now rewrite addTo_id).
    assert (H2 : hasId j (withName img newName) = hasId j img) by reflexivity.
    destruct (hasId j img) eqn:Hj; rewrite ?H1, ?H2;
      destruct (hasId i img) eqn:Hi; rewrite ?H2, ?Hj;
      try reflexivity; now rewrite addTo_withName.
Qed.

(** X4. What the user does to an item while its call is awaited (a name
    typed, keywords added or removed) is overwritten when the call
    succeeds. *)
Theorem success_overwrites_edits (i newName k : jsstring) (ks : list jsstring)
        (d : GeminiService.details) (c : collection) :
  applySuccess i d (handleNameChange i newName c) = applySuccess i d c
  /\ applySuccess i d (handleAddKeywords i ks c) = applySuccess i d c
  /\ applySuccess i d (handleRemoveKeyword i k c) = applySuccess i d c.
Proof.
  unfold applySuccess, handleNameChange, handleAddKeywords, handleRemoveKeyword.
  repeat split; rewrite map_map; apply map_ext; intros img;
    destruct (hasId i img) eqn:Hi; rewrite ?Hi; try reflexivity.
  - unfold hasId in *; simpl; now rewrite Hi.
  - replace (hasId i (addTo img ks)) with true
      by (unfold hasId in *; now rewrite addTo_id).
    unfold addTo; destruct (0 <? _)%nat; reflexivity.
  - unfold hasId in *; simpl; now rewrite Hi.
Qed.

End NameEdits.

(** ** The generation service, case by case *)

Section ServiceCases.
Import App Spec GeminiService.
Variable unicodeLower : jsstring -> jsstring.
Variable undefinedCallMessage : jsstring.

Let generate := generateImageDetails unicodeLower undefinedCallMessage.
Let request := requestDetails unicodeLower undefinedCallMessage.

Let repliedDetails := Spec.repliedDetails unicodeLower.

Lemma resultFilename_nonempty (raw : jsstring) (now : N) :
  resultFilename unicodeLower raw now <> [].
Proof.
  unfold resultFilename.
  destruct (cleanFilename unicodeLower raw) eqn:E; simpl; discriminate.
Qed.

Lemma generate_cases (e : call_env) (now : N) :
  (requestIssued e = true /\ generate e now = request (api e) now)
  \/ (requestIssued e = false
      /\ ((apiKeySet e = false /\ generate e now = Rejected (newError apiKeyMessage))
          \/ (apiKeySet e = true /\ exists t, fileRead e = ReadRejects t
                                              /\ generate e now = Rejected t)
          \/ (apiKeySet e = true /\ fileRead e = ReadGives None
              /\ generate e now = Rejected (newError readFailureMessage))
          \/ (apiKeySet e = true /\ (exists s, fileRead e = ReadGives (Some s))
              /\ generate e now = Rejected (newError invalidDataMessage)))).
Proof.
  unfold requestIssued, generate, generateImageDetails.
  destruct (apiKeySet e); cbn [negb andb]; [|right; split; auto].
  destruct (fileRead e) as [t|[d|]].
  - right; split; [reflexivity|]. right; left; eauto.
  - destruct (nth_error (split comma d) 1) as [[|u s]|].
    + right; split; [reflexivity|]. right; right; right; eauto.
    + left; split; reflexivity.
    + right; split; [reflexivity|]. right; right; right; eauto.
  - right; split; [reflexivity|]. right; right; left; auto.
Qed.

(** X5. The call resolves exactly when the key is set, the file reads as
    a data URL with a payload, and the reply of the service parses; the
    result is then the cleaned title (or the fallback name) with the
    keywords of the reply as they come, none when the reply has none. *)
Theorem resolves_iff (e : call_env) (now : N) (d : details) :
  generate e now = Resolved d
  <-> requestIssued e = true
      /\ exists r, api e = ApiReplies r /\ d = repliedDetails r now.
Proof.
  destruct (generate_cases e now) as [[Hreq E]|[Hreq H]]; rewrite ?E.
  - unfold request, requestDetails; split.
    + destruct (api e) as [t|n m|r]; try discriminate.
      intros H; injection H as <-; split; [assumption|]. now exists r.
    + intros [_ (r & -> & ->)]; reflexivity.
  - split.
    + destruct H as [[_ E]|[[_ (t & _ & E)]|[[_ [_ E]]|[_ [_ E]]]]];
        rewrite E; discriminate.
    + intros [H' _]; congruence.
Qed.

(** X6. The failures before the request come in a fixed order: without a
    key the call fails with the key's message, whatever the file and the
    service; next a rejection of the reader is passed on as it is; and a
    rejection that is no [Error] object can only be the reader's. *)
Theorem early_failures (e : call_env) (now : N) :
  (apiKeySet e = false -> generate e now = Rejected (newError apiKeyMessage))
  /\ (apiKeySet e = true ->
      forall t, fileRead e = ReadRejects t -> generate e now = Rejected t)
  /\ (forall json, generate e now = Rejected (OtherValue json) ->
                   apiKeySet e = true /\ fileRead e = ReadRejects (OtherValue json)).
Proof.
  split; [|split].
  - intros H; unfold generate, generateImageDetails; now rewrite H.
  - intros H t Ht; unfold generate, generateImageDetails; now rewrite H, Ht.
  - intros json Hrej.
    destruct (generate_cases e now) as [[Hreq E]|[Hreq H]].
    + rewrite E in Hrej; unfold request, requestDetails in Hrej.
      destruct (api e) as [t|n m|r]; try discriminate;
        injection Hrej as Hrej; unfold classifyFailure in Hrej;
        destruct (failureText _); try discriminate;
        destruct (hasRateLimitMarker _); discriminate.
    + destruct H as [[_ E]|[[Hk (t & Hr & E)]|[[_ [_ E]]|[_ [_ E]]]]];
        rewrite E in Hrej; try discriminate.
      injection Hrej as ->; auto.
Qed.

End ServiceCases.

Lemma split_without (sep : codeunit) (s : jsstring) :
  ~ In sep s -> GeminiService.split sep s = [s].
Proof.
  induction s as [|c s IH]; simpl; intros H; [reflexivity|].
  destruct (unit_eqb c sep) eqn:E.
  - apply N.eqb_eq in E; subst; tauto.
  - rewrite IH by tauto; reflexivity.
Qed.

Lemma split_at_first (sep : codeunit) (h p : jsstring) :
  ~ In sep h ->
  GeminiService.split sep (h ++ sep :: p) = h :: GeminiService.split sep p.
Proof.
  induction h as [|c h IH]; simpl; intros H.
  - unfold unit_eqb; now rewrite N.eqb_refl.
  - destruct (unit_eqb c sep) eqn:E.
    + apply N.eqb_eq in E; subst; tauto.
    + rewrite IH by tauto; reflexivity.
Qed.

Lemma split_head (sep : codeunit) (p : jsstring) :
  exists first rest, GeminiService.split sep p = first :: rest
    /\ (first = [] <-> match p with [] => True | c :: _ => c = sep end).
Proof.
  destruct p as [|c p]; simpl.
  - exists [], []; tauto.
  - destruct (unit_eqb c sep) eqn:E.
    + apply N.eqb_eq in E; subst. eexists _, _; split; [reflexivity | tauto].
    + assert (c <> sep) by (intros ->; unfold unit_eqb in E; now rewrite N.eqb_refl in E).
      destruct (GeminiService.split sep p); eexists _, _;
        (split; [reflexivity | split; [discriminate | tauto]]).
Qed.

Lemma startsWith_map (f : codeunit -> codeunit) (s p : jsstring) :
  startsWith s p = true -> startsWith (map f s) (map f p) = true.
Proof.
  revert s; induction p as [|y p IH]; intros [|x s]; simpl; try congruence.
  rewrite !andb_true_iff; intros [E H]; split; [|now apply IH].
  apply N.eqb_eq in E; subst; apply N.eqb_refl.
Qed.

Lemma str_includes_map (f : codeunit -> codeunit) (s p : jsstring) :
  str_includes s p = true -> str_includes (map f s) (map f p) = true.
Proof.
  induction s as [|x s IH].
  - destruct p; simpl; auto.
  - change (str_includes (x :: s) p)
      with (startsWith (x :: s) p || str_includes s p).
    change (str_includes (map f (x :: s)) (map f p))
      with (startsWith (map f (x :: s)) (map f p)
            || str_includes (map f s) (map f p)).
    rewrite !orb_true_iff; intros [H|H]; [left | right; now apply IH].
    now apply startsWith_map.
Qed.

Section ServiceDetails.
Import App Spec GeminiService.
Variable unicodeLower : jsstring -> jsstring.
Variable undefinedCallMessage : jsstring.

Let generate := generateImageDetails unicodeLower undefinedCallMessage.
Let request := requestDetails unicodeLower undefinedCallMessage.

Lemma resolved_filename (e : call_env) (now : N) (d : details) :
  generate e now = Resolved d -> filename d <> [].
Proof.
  intros H.
  destruct (generate_cases unicodeLower undefinedCallMessage e now)
    as [[_ E]|[_ [[_ E]|[[_ (t & _ & E)]|[[_ [_ E]]|[_ [_ E]]]]]]];
    fold generate in E; rewrite E in H; try discriminate.
  unfold requestDetails in H.
  destruct (api e) as [t|n m|r]; try discriminate.
  injection H as <-; apply resultFilename_nonempty.
Qed.

(** X7. A call that resolves never gives an empty name: after the
    success transition every item of the addressed identity has the
    result's name, counts as successful, is out of flight and out of the
    next batch run, and holds the result's keywords, all of them, sorted. *)
Theorem resolved_item_is_successful (e : call_env) (now : N) (d : details)
        (i : jsstring) (c : collection) :
  generate e now = Resolved d ->
  filename d <> []
  /\ forall img,
       In img (applySuccess i d c) -> id img = i ->
       suggestedName img = filename d
       /\ In img (successfulImages (applySuccess i d c))
       /\ toProcess img = false
       /\ isLoading img = false
       /\ Permutation (App.keywords img) (keywords d)
       /\ sortedAscending (App.keywords img).
Proof.
  intros H; pose proof (resolved_filename e now d H) as Hne.
  split; [exact Hne|].
  intros img Hin Hi.
  assert (Hname : suggestedName img = filename d
                  /\ isLoading img = false
                  /\ App.keywords img = sort (keywords d)).
  { unfold applySuccess in Hin; apply in_map_iff in Hin.
    destruct Hin as (x & E & _).
    destruct (hasId i x) eqn:Hx; subst img; [repeat split|].
    apply hasId_false in Hx; contradiction. }
  destruct Hname as (Hn & Hl & Hk).
  assert (Ht : truthy (suggestedName img) = true)
    by (rewrite Hn; destruct (filename d); [contradiction | reflexivity]).
  repeat split; try assumption.
  - unfold successfulImages; apply filter_In; auto.
  - unfold toProcess; now rewrite Ht.
  - rewrite Hk; apply sort_perm.
  - rewrite Hk; apply sort_sorted.
Qed.

(** X8. Of the data URL the reader gives, the call takes what lies
    between the first comma and the next: a URL without a comma, or with
    nothing there, ends the call with the message of invalid data before
    any request; with a payload the request is made. *)
Theorem data_url_payload (e : call_env) (now : N) (base64Data : jsstring) :
  apiKeySet e = true ->
  fileRead e = ReadGives (Some base64Data) ->
  (~ In comma base64Data ->
     generate e now = Rejected (newError invalidDataMessage))
  /\ (forall header rest,
        base64Data = header ++ comma :: rest -> ~ In comma header ->
        generate e now
        = match rest with
          | [] => Rejected (newError invalidDataMessage)
          | c :: _ => if unit_eqb c comma
                      then Rejected (newError invalidDataMessage)
                      else request (api e) now
          end).
Proof.
  intros Hk Hr; unfold generate, generateImageDetails; rewrite Hk, Hr.
  cbn [negb]; split.
  - intros H; now rewrite (split_without comma base64Data H).
  - intros header rest -> H.
    rewrite (split_at_first comma header rest H).
    destruct (split_head comma rest) as (first & others & -> & Hfirst).
    cbn [nth_error].
    destruct rest as [|c rest].
    + now rewrite (proj2 Hfirst I).
    + destruct (unit_eqb c comma) eqn:E.
      * apply N.eqb_eq in E. now rewrite (proj2 Hfirst E).
      * destruct first; [|reflexivity].
        pose proof (proj1 Hfirst eq_refl) as ->.
        unfold unit_eqb in E; now rewrite N.eqb_refl in E.
Qed.

(** X9. The markers are looked for in the lowercased text: a failure
    whose text is ASCII and holds [429], [resource_exhausted] or
    [rate limit] in any mix of upper and lower case gets the rate-limit
    message. *)
Theorem markers_in_any_case (t : thrown) (text marker : jsstring) :
  failureText t = Some text ->
  forallb isAscii text = true ->
  str_includes text marker = true ->
  In (map asciiLower marker)
     [lit "429"; lit "resource_exhausted"; lit "rate limit"] ->
  classifyFailure unicodeLower undefinedCallMessage t = newError rateLimitMessage.
Proof.
  intros Ht Hascii Hinc Hm.
  unfold classifyFailure; rewrite Ht; cbv zeta.
  unfold toLowerCase; rewrite Hascii.
  apply (str_includes_map asciiLower) in Hinc.
  unfold hasRateLimitMarker.
  destruct Hm as [E|[E|[E|[]]]]; rewrite <- E in Hinc;
    rewrite Hinc, ?orb_true_r; reflexivity.
Qed.

End ServiceDetails.

Lemma resolved_item_is_successful_witness :
  GeminiService.filename
    (Spec.repliedDetails Sample.noUnicodeLower
       {| GeminiService.reply_filename := Some (lit " -- ");
          GeminiService.reply_keywords := None |} 7)
  <> [].
Proof.
  apply (resolved_item_is_successful Sample.noUnicodeLower Sample.engineMessage
           (Sample.okEnv (GeminiService.ApiReplies
              {| GeminiService.reply_filename := Some (lit " -- ");
                 GeminiService.reply_keywords := None |}))
           7 _ (App.id Sample.cat) [Sample.cat]).
  reflexivity.
Defined.

Lemma data_url_payload_witness :
  GeminiService.generateImageDetails Sample.noUnicodeLower Sample.engineMessage
    Sample.noPayload 0
  = GeminiService.Rejected (GeminiService.newError GeminiService.invalidDataMessage).
Proof.
  apply (data_url_payload Sample.noUnicodeLower Sample.engineMessage
           Sample.noPayload 0 (lit "data:image/png;base64") eq_refl eq_refl).
  vm_compute; intros H; repeat (destruct H as [H|H]; [discriminate H|]); exact H.
Defined.

Lemma markers_in_any_case_witness :
  GeminiService.classifyFailure Sample.noUnicodeLower Sample.engineMessage Sample.tooMany
  = GeminiService.newError GeminiService.rateLimitMessage.
Proof.
  apply (markers_in_any_case Sample.noUnicodeLower Sample.engineMessage
           Sample.tooMany
           (GeminiService.errorToString
              (lit "ApiError")
              (lit "got status: 429 Too Many Requests. RESOURCE_EXHAUSTED"))
           (lit "RESOURCE_EXHAUSTED"));
    [reflexivity | reflexivity | reflexivity | right; left; reflexivity].
Defined.

(** ** Counts and views *)

Section CountsAndViews.
Import App Spec.

Lemma isProcessing_false (c : collection) :
  isProcessing c = false <-> Forall (fun img => isLoading img = false) c.
Proof.
  unfold isProcessing; induction c as [|img c IH]; simpl.
  - split; [constructor | reflexivity].
  - rewrite orb_false_iff, IH; split.
    + intros [H1 H2]; now constructor.
    + intros H; inversion H; auto.
Qed.

(** X10. Every item is counted once: as successful, as waiting for the
    batch run, or as in flight without a name.  So when nothing is in
    flight the two counters of the header add up to the queue, and the
    Generate All button is enabled exactly when nothing is in flight and
    some item has no name. *)
Theorem counters_partition (c : collection) :
  List.length c
  = (successfulCount c + imagesToProcessCount c
     + List.length (filter (fun img => negb (truthy (suggestedName img))
                                       && isLoading img) c))%nat
  /\ (isProcessing c = false ->
      List.length c = (successfulCount c + imagesToProcessCount c)%nat)
  /\ (generateAllDisabled c = false
      <-> isProcessing c = false /\ exists img, In img c /\ suggestedName img = []).
Proof.
  assert (P : List.length c
              = (successfulCount c + imagesToProcessCount c
                 + List.length (filter (fun img => negb (truthy (suggestedName img))
                                                   && isLoading img) c))%nat).
  { unfold successfulCount, imagesToProcessCount, successfulImages, toProcess.
    induction c as [|img c IH]; simpl; [reflexivity|].
    destruct (truthy (suggestedName img)), (isLoading img); simpl; lia. }
  assert (Q : isProcessing c = false ->
              filter (fun img => negb (truthy (suggestedName img)) && isLoading img) c = []).
  { clear P; intros H; apply isProcessing_false in H.
    induction H as [|img c Hl _ IH]; simpl; [reflexivity|].
    now rewrite Hl, andb_false_r. }
  split; [exact P|]. split.
  - intros H; rewrite P, (Q H); simpl; lia.
  - unfold generateAllDisabled; rewrite orb_false_iff, Nat.eqb_neq.
    split; intros [H1 H2].
    + split; [assumption|].
      unfold imagesToProcessCount in H1.
      destruct (filter toProcess c) as [|img l] eqn:E; [contradiction|].
      assert (Hin : In img (filter toProcess c)) by (rewrite E; now left).
      apply filter_In in Hin; destruct Hin as [Hin Ht].
      exists img; split; [assumption|].
      unfold toProcess in Ht; destruct (suggestedName img); [reflexivity | discriminate].
    + split; [|assumption].
      destruct H2 as (img & Hin & Hn).
      pose proof (proj1 (isProcessing_false c) H1) as Hall.
      rewrite Forall_forall in Hall.
      assert (Hf : In img (filter toProcess c)).
      { apply filter_In; split; [assumption|].
        unfold toProcess; now rewrite Hn, (Hall img Hin). }
      unfold imagesToProcessCount; destruct (filter toProcess c); [destruct Hf | discriminate].
Qed.

(** X11. What an item shows along a retry: the spinner while in flight;
    after a failure with a message, the message, also when the item still
    has its earlier name, which then cannot be edited in the list; after a
    success with a name, the name editor, an error of before being cleared
    at the start. *)
Theorem views_along_a_retry (i : jsstring) (c : collection) (n : nat)
        (img : ProcessedImage) :
  nth_error c n = Some img -> id img = i ->
  (exists img1, nth_error (markLoading i c) n = Some img1
                /\ ImageItem.renderStatus img1 = ImageItem.Generating)
  /\ (forall msg, msg <> [] ->
        exists img2, nth_error (applyFailure i msg (markLoading i c)) n = Some img2
                     /\ ImageItem.renderStatus img2 = ImageItem.Failed msg
                     /\ suggestedName img2 = suggestedName img)
  /\ (forall d, GeminiService.filename d <> [] ->
        exists img3, nth_error (applySuccess i d (markLoading i c)) n = Some img3
                     /\ ImageItem.renderStatus img3 = ImageItem.NameEditor).
Proof.
  intros Hn Hi.
  pose proof (nth_update i (fun img => withError (withLoading img true) None)
                         c n img Hn Hi) as H1.
  fold (markLoading i c) in H1.
  split; [eexists; split; [exact H1 | reflexivity]|].
  split.
  - intros msg Hmsg.
    eexists; split.
    + apply (nth_update i (fun img => withError (withLoading img false) (Some msg))
                        (markLoading i c) n _ H1 Hi).
    + unfold ImageItem.renderStatus; simpl.
      destruct msg; [contradiction | split; reflexivity].
  - intros d Hd.
    eexists; split.
    + apply (nth_update i
               (fun img => withLoading
                             (withKeywords (withName img (GeminiService.filename d))
                                           (sort (GeminiService.keywords d))) false)
               (markLoading i c) n _ H1 Hi).
    + unfold ImageItem.renderStatus; simpl.
      destruct (GeminiService.filename d); [contradiction | reflexivity].
Qed.

Lemma views_along_a_retry_witness :
  exists img2,
    nth_error (applyFailure (id Sample.namedCat) GeminiService.genericMessage
                 (markLoading (id Sample.namedCat) [Sample.namedCat])) 0 = Some img2
    /\ ImageItem.renderStatus img2 = ImageItem.Failed GeminiService.genericMessage
    /\ suggestedName img2 = suggestedName Sample.namedCat.
Proof.
  apply (proj1 (proj2 (views_along_a_retry (id Sample.namedCat) [Sample.namedCat]
                         0%nat Sample.namedCat eq_refl eq_refl))).
  discriminate.
Defined.

Lemma find_update (i : jsstring) (f : ProcessedImage -> ProcessedImage)
      (t : ProcessedImage -> bool) (c : collection) :
  (forall img, id (f img) = id img) ->
  find (hasId i) (map (fun img => if t img then f img else img) c)
  = option_map (fun img => if t img then f img else img) (find (hasId i) c).
Proof.
  intros Hf; induction c as [|x c IH]; simpl; [reflexivity|].
  assert (E : hasId i (if t x then f x else x) = hasId i x)
    by (unfold hasId; destruct (t x); now rewrite ?Hf).
  rewrite E; destruct (hasId i x); [reflexivity | exact IH].
Qed.

Lemma find_removed (i : jsstring) (c : collection) :
  find (hasId i) (handleRemoveImage i c) = None.
Proof.
  unfold handleRemoveImage; induction c as [|x c IH]; simpl; [reflexivity|].
  destruct (hasId i x) eqn:E; simpl; [exact IH | now rewrite E].
Qed.

(** X12. The tag editor looks its item up in the live collection by
    identity: it closes when the item is removed or the collection
    cleared, and it shows the keywords as the collection has them after an
    add or a remove. *)
Theorem editor_follows_the_collection (e : ProcessedImage) (c : collection) :
  imageBeingEdited (handleRemoveImage (id e) c) (Some e) = None
  /\ imageBeingEdited (handleClearAll c) (Some e) = None
  /\ (forall ks, imageBeingEdited (handleAddKeywords (id e) ks c) (Some e)
                 = option_map (fun img => addTo img ks) (imageBeingEdited c (Some e)))
  /\ (forall k, imageBeingEdited (handleRemoveKeyword (id e) k c) (Some e)
                = option_map
                    (fun img => withKeywords img
                                  (filter (fun x => negb (str_eqb x k)) (keywords img)))
                    (imageBeingEdited c (Some e))).
Proof.
  unfold imageBeingEdited; split; [apply find_removed|].
  split; [reflexivity|].
  assert (Hfound : forall g,
             option_map (fun img => if hasId (id e) img then g img else img)
                        (find (hasId (id e)) c)
             = option_map g (find (hasId (id e)) c)).
  { intros g; destruct (find (hasId (id e)) c) as [img|] eqn:E; [|reflexivity].
    apply find_some in E; destruct E as [_ E]; simpl; now rewrite E. }
  split.
  - intros ks; unfold handleAddKeywords.
    rewrite find_update by (intros; apply addTo_id). apply Hfound.
  - intros k; unfold handleRemoveKeyword.
    rewrite find_update by reflexivity.
    apply (Hfound (fun img => withKeywords img
                                (filter (fun x => negb (str_eqb x k)) (keywords img)))).
Qed.

End CountsAndViews.

(** ** Exports and clean-up *)

Section ExportsAgree.
Import App Spec.
Variable localeCompare : jsstring -> jsstring -> Z.

(** X13. The archive and the table are made for the same collections and
    name the same files: the archive has one entry for each successful
    item, named by name and extension, in the order of the collection; the
    rows of the table start with these names in quotes, sorted. *)
Theorem archive_matches_table (c : collection) :
  (archiveEntries c = None <-> handleDownloadCsv localeCompare c = None)
  /\ (forall entries,
        archiveEntries c = Some entries ->
        map fst entries = map newFilename (successfulImages c)
        /\ map snd entries = map file (successfulImages c)
        /\ Permutation (map fst entries)
                       (map newFilename (sortedData localeCompare c)))
  /\ (forall image,
        csvRow image
        = [quote] ++ newFilename image ++ [quote] ++ lit ","
          ++ [quote] ++ join (lit ", ") (keywords image) ++ [quote]).
Proof.
  unfold archiveEntries, handleDownloadCsv.
  split; [|split].
  - destruct (List.length (successfulImages c) =? 0)%nat; split;
      intros; congruence.
  - intros entries H.
    destruct (List.length (successfulImages c) =? 0)%nat; [discriminate|].
    injection H as <-; rewrite !map_map; simpl.
    repeat split.
    apply Permutation_map, Permutation_sym, sort_by_perm.
  - intros image; unfold csvRow, newFilename; cbv zeta.
    now rewrite <- !app_assoc.
Qed.

End ExportsAgree.

Section CopyAndRelease.
Import App Spec.

Lemma join_nonempty (sep first : jsstring) (rest : list jsstring) :
  first <> [] -> join sep (first :: rest) <> [].
Proof.
  destruct first as [|c s]; [contradiction|].
  intros _; destruct rest; simpl; discriminate.
Qed.

(** X14. The list of names is copied to the clipboard exactly when some
    item has a name; what is copied is the names of the successful items in
    the order of the collection, joined by a comma and a space. *)
Theorem copy_list_iff_successful (c : collection) :
  (handleCopyList c = None <-> successfulImages c = [])
  /\ (forall text, handleCopyList c = Some text ->
        text = join (lit ", ") (map suggestedName (successfulImages c)))
  /\ Forall (fun n => n <> []) (map suggestedName (successfulImages c)).
Proof.
  assert (Hnames : Forall (fun n => n <> []) (map suggestedName (successfulImages c))).
  { apply Forall_forall; intros n Hn; apply in_map_iff in Hn.
    destruct Hn as (img & <- & Hin).
    unfold successfulImages in Hin; apply filter_In in Hin.
    destruct Hin as [_ Ht]; destruct (suggestedName img); [discriminate Ht | discriminate]. }
  unfold handleCopyList, renamedFilesList.
  split; [|split; [|exact Hnames]].
  - destruct (successfulImages c) as [|img l] eqn:E; simpl map.
    + simpl; tauto.
    + inversion Hnames as [|n ns Hn _]; subst.
      pose proof (join_nonempty (lit ", ") (suggestedName img)
                                (map suggestedName l) Hn) as Hj.
      destruct (join (lit ", ") (suggestedName img :: map suggestedName l));
        [contradiction|].
      simpl; split; discriminate.
  - intros text H.
    destruct (truthy (join (lit ", ") (map suggestedName (successfulImages c))));
      congruence.
Qed.

Lemma remove_unmatched (i : jsstring) (c : collection) :
  ~ In i (map id c) -> handleRemoveImage i c = c.
Proof.
  unfold handleRemoveImage; induction c as [|x c IH]; simpl; intros H; [reflexivity|].
  destruct (hasId i x) eqn:E.
  - apply hasId_true in E; tauto.
  - simpl; f_equal; apply IH; tauto.
Qed.

Lemma revoke_unmatched (i : jsstring) (c : collection) :
  ~ In i (map id c) -> revokedByRemove i c = [].
Proof.
  unfold revokedByRemove; induction c as [|x c IH]; simpl; intros H; [reflexivity|].
  destruct (hasId i x) eqn:E.
  - apply hasId_true in E; tauto.
  - apply IH; tauto.
Qed.

(** X15. While identities are distinct, removing an item releases the
    object URLs of exactly the items that leave the collection: the URLs
    of the collection before are those released together with those still
    live.  Clearing releases the URL of every item.  After a removal no
    item of that identity is left and the other items are all there. *)
Theorem removal_releases_urls (i : jsstring) (c : collection) :
  distinctIds c ->
  Permutation (map imageUrl c)
              (revokedByRemove i c ++ map imageUrl (handleRemoveImage i c))
  /\ revokedByClear c ++ map imageUrl (handleClearAll c) = map imageUrl c
  /\ (forall img, In img (handleRemoveImage i c) <-> In img c /\ id img <> i).
Proof.
  intros Hd; split; [|split].
  - unfold distinctIds in Hd.
    induction c as [|x c IH]; simpl; [constructor|].
    simpl in Hd; apply NoDup_cons_iff in Hd; destruct Hd as [Hx Hd].
    unfold revokedByRemove, handleRemoveImage; simpl.
    destruct (hasId i x) eqn:E; simpl.
    + apply hasId_true in E; subst i.
      fold (handleRemoveImage (id x) c); now rewrite remove_unmatched.
    + fold (handleRemoveImage i c).
      change (match find (hasId i) c with
              | Some imageToRemove => [imageUrl imageToRemove]
              | None => []
              end) with (revokedByRemove i c).
      apply Permutation_cons_app, IH, Hd.
  - unfold revokedByClear, handleClearAll; simpl; apply app_nil_r.
  - intros img; unfold handleRemoveImage; rewrite filter_In.
    rewrite negb_true_iff, hasId_false; reflexivity.
Qed.

Lemma removal_releases_urls_witness :
  Permutation (map imageUrl [Sample.namedCat; Sample.cityLights])
              (revokedByRemove (id Sample.cityLights) [Sample.namedCat; Sample.cityLights]
               ++ map imageUrl (handleRemoveImage (id Sample.cityLights)
                                  [Sample.namedCat; Sample.cityLights])).
Proof.
  apply (removal_releases_urls (id Sample.cityLights)
           [Sample.namedCat; Sample.cityLights]).
  unfold distinctIds; vm_compute.
  constructor; [intros [E|[]]; discriminate E|].
  constructor; [intros []|constructor].
Defined.

End CopyAndRelease.

(** ** The keyword pickers *)

Section Pickers.
Import App Spec KeywordAdder.

Lemma toggle_In (k x : jsstring) (s : list jsstring) :
  In x (handleCheckboxChange k s)
  <-> (x <> k /\ In x s) \/ (x = k /\ ~ In k s).
Proof.
  unfold handleCheckboxChange.
  destruct (includes s k) eqn:E.
  - apply includes_In in E.
    rewrite filter_In, negb_true_iff, str_eqb_neq.
    split; [intros [H1 H2]; left; auto | intros [[H1 H2]|[H1 H2]]; [auto | contradiction]].
  - assert (Hk : ~ In k s) by (rewrite <- includes_In, E; discriminate).
    rewrite in_app_iff; simpl; split.
    + intros [H|[H|[]]]; [left; split; [intros ->; contradiction | assumption]
                         | right; auto].
    + intros [[_ H]|[H _]]; auto.
Qed.

Lemma toggle_NoDup (k : jsstring) (s : list jsstring) :
  NoDup s -> NoDup (handleCheckboxChange k s).
Proof.
  intros H; unfold handleCheckboxChange.
  destruct (includes s k) eqn:E; [now apply NoDup_filter|].
  assert (Hk : ~ In k s) by (rewrite <- includes_In, E; discriminate).
  apply NoDup_app; [assumption | repeat constructor; intros [] |].
  intros x Hx [<-|[]]; contradiction.
Qed.

Lemma includes_toggle (k' k : jsstring) (s : list jsstring) :
  includes (handleCheckboxChange k' s) k
  = if str_eqb k' k then negb (includes s k) else includes s k.
Proof.
  apply eq_true_iff_eq.
  rewrite includes_In, toggle_In.
  destruct (str_eqb k' k) eqn:E.
  - apply str_eqb_eq in E; subst k'.
    rewrite negb_true_iff, <- not_true_iff_false, includes_In.
    split; [intros [[H _]|[_ H]]; [congruence | assumption] | auto].
  - apply str_eqb_neq in E; rewrite includes_In.
    split; [intros [[_ H]|[H _]]; [assumption | congruence] | auto].
Qed.

Lemma run_checks (ks : list jsstring) (st : state) :
  run (map Check ks) st
  = ({| isOpen := isOpen st;
        selectedKeywords :=
          fold_left (fun s k => handleCheckboxChange k s) ks (selectedKeywords st) |},
     []).
Proof.
  revert st; induction ks as [|k ks IH]; intros st; simpl.
  - destruct st; reflexivity.
  - rewrite IH; reflexivity.
Qed.

(** X16. Ticking boxes calls no callback and leaves the list open or
    closed as it was; afterwards a keyword is selected exactly when it was
    selected before and ticked an even number of times, or not selected and
    ticked an odd number of times; a selection without duplicates stays
    without duplicates. *)
Theorem checkbox_parity (ks : list jsstring) (st : state) :
  let st' := fst (run (map Check ks) st) in
  snd (run (map Check ks) st) = []
  /\ isOpen st' = isOpen st
  /\ (NoDup (selectedKeywords st) -> NoDup (selectedKeywords st'))
  /\ forall k, includes (selectedKeywords st') k
               = xorb (includes (selectedKeywords st) k)
                      (Nat.odd (count_occ str_dec ks k)).
Proof.
  rewrite run_checks; simpl.
  split; [reflexivity|]. split; [reflexivity|].
  generalize (selectedKeywords st); clear st.
  induction ks as [|k' ks IH]; intros s; simpl.
  - split; [auto|]. intros k; now rewrite xorb_false_r.
  - destruct (IH (handleCheckboxChange k' s)) as [Hd Hp].
    split; [intros H; apply Hd, toggle_NoDup, H|].
    intros k; rewrite Hp, includes_toggle.
    destruct (str_dec k' k) as [->|Hne].
    + rewrite str_eqb_refl, Nat.odd_succ, <- Nat.negb_odd.
      destruct (includes s k), (Nat.odd _); reflexivity.
    + apply str_eqb_neq in Hne; now rewrite Hne.
Qed.

Lemma run_calls (events : list event) (st : state) :
  NoDup (selectedKeywords st) ->
  NoDup (selectedKeywords (fst (run events st)))
  /\ Forall (fun ks => ks <> [] /\ NoDup ks) (snd (run events st)).
Proof.
  revert st; induction events as [|e events IH]; intros st H; simpl.
  - split; [assumption | constructor].
  - destruct (step e st) as [st' call] eqn:E.
    assert (H' : NoDup (selectedKeywords st')
                 /\ match call with Some ks => ks <> [] /\ NoDup ks | None => True end).
    { destruct e; simpl in E.
      - injection E as <- <-; auto.
      - injection E as <- <-; split; [now apply toggle_NoDup | exact I].
      - injection E as <- <-; split; [constructor|].
        destruct (selectedKeywords st); simpl; [exact I | split; [discriminate | assumption]].
      - destruct (isOpen st); injection E as <- <-; split; auto; constructor. }
    destruct H' as [Hs Hc].
    destruct (IH st' Hs) as [Hf Hcalls].
    destruct (run events st') as [final calls]; simpl in *.
    split; [assumption|].
    destruct call; [constructor|]; assumption.
Qed.

Lemma add_keeps_distinct (i : jsstring) (ks : list jsstring) (c : collection) :
  NoDup ks -> noDuplicates c -> noDuplicates (handleAddKeywords i ks c).
Proof.
  intros Hks Hc.
  apply (Forall_map_if (fun img => NoDup (keywords img))); [|assumption].
  intros; now apply addTo_nodup.
Qed.

Lemma bulk_keeps_distinct (b : bool) (ks : list jsstring) (c : collection) :
  NoDup ks -> noDuplicates c -> noDuplicates (handleAddKeywordsToAll b ks c).
Proof.
  intros Hks Hc; apply bulk_unfold; [assumption|].
  apply (Forall_map_if (fun img => NoDup (keywords img))); [|assumption].
  intros; now apply addTo_nodup.
Qed.

(** X17. Whatever is done to a picker from its first state (opening,
    closing, ticking, submitting, clicking outside), every list it submits
    is not empty and has no duplicates.  So keywords added through the
    pickers, to one item or to all, never bring a duplicate into a
    collection that has none. *)
Theorem pickers_keep_keywords_distinct (events : list event) (i : jsstring)
        (confirmed : bool) (c : collection) :
  noDuplicates c ->
  Forall (fun ks => ks <> [] /\ NoDup ks) (snd (run events initial))
  /\ noDuplicates (feedAdd i (snd (run events initial)) c)
  /\ noDuplicates (feedBulk confirmed (snd (run events initial)) c).
Proof.
  intros Hc.
  destruct (run_calls events initial (NoDup_nil _)) as [_ Hcalls].
  split; [exact Hcalls|].
  revert c Hc; induction Hcalls as [|ks calls [_ Hks] _ IH]; intros c Hc; simpl.
  - auto.
  - split.
    + apply IH; now apply add_keeps_distinct.
    + apply IH; now apply bulk_keeps_distinct.
Qed.

Lemma pickers_keep_keywords_distinct_witness :
  noDuplicates
    (feedAdd (id Sample.namedCat)
       (snd (run [ToggleOpen; Check (lit "pet"); Check (lit "zoo"); Submit] initial))
       [Sample.namedCat]).
Proof.
  apply (pickers_keep_keywords_distinct
           [ToggleOpen; Check (lit "pet"); Check (lit "zoo"); Submit]
           (id Sample.namedCat) true [Sample.namedCat]).
  constructor; [|constructor].
  vm_compute. constructor.
  - intros [E|[]]; discriminate E.
  - constructor; [intros [] | constructor].
Defined.

End Pickers.

(** ** Adding and removing keywords *)

Section AddRemove.
Import App Spec KeywordAdder.

Lemma new_keywords_In (old ks : list jsstring) (k : jsstring) :
  In k (filter (fun k => negb (includes old k)) ks) <-> In k ks /\ ~ In k old.
Proof.
  rewrite filter_In, negb_true_iff, <- not_true_iff_false, includes_In; reflexivity.
Qed.

Lemma addTo_In (img : ProcessedImage) (ks : list jsstring) (k : jsstring) :
  In k (keywords (addTo img ks)) <-> In k (keywords img) \/ In k ks.
Proof.
  unfold addTo.
  destruct (filter (fun k => negb (includes (keywords img) k)) ks) as [|n l] eqn:E.
  - simpl; split; [auto|]. intros [H|H]; [assumption|].
    destruct (includes (keywords img) k) eqn:Hk; [now apply includes_In|].
    assert (Hin : In k (filter (fun k => negb (includes (keywords img) k)) ks))
      by (apply filter_In; split; [assumption | now rewrite Hk]).
    rewrite E in Hin; destruct Hin.
  - simpl (0 <? _)%nat; cbv iota; simpl keywords.
    rewrite <- E.
    split.
    + intros H; apply (Permutation_in _ (sort_perm _)) in H.
      apply in_app_or in H; destruct H as [H|H]; [auto|].
      apply new_keywords_In in H; tauto.
    + intros H; apply (Permutation_in _ (Permutation_sym (sort_perm _))).
      apply in_or_app.
      destruct (includes (keywords img) k) eqn:Hk; [left; now apply includes_In|].
      destruct H as [H|H]; [auto|].
      right; apply filter_In; split; [assumption | now rewrite Hk].
Qed.

Lemma addTo_twice (img : ProcessedImage) (ks : list jsstring) :
  addTo (addTo img ks) ks = addTo img ks.
Proof.
  unfold addTo at 1.
  rewrite filter_none; [reflexivity|].
  intros k Hk; rewrite negb_false_iff; apply includes_In, addTo_In; auto.
Qed.

Lemma addTo_name (img : ProcessedImage) (ks : list jsstring) :
  suggestedName (addTo img ks) = suggestedName img.
Proof. unfold addTo; destruct (0 <? _)%nat; reflexivity. Qed.

(** X18. After an add, to one item or to all, an item that was touched
    holds exactly the keywords it had and the keywords given; and adding
    the same keywords a second time changes nothing. *)
Theorem add_is_union_and_idempotent (i : jsstring) (confirmed : bool)
        (ks : list jsstring) (c : collection) :
  (forall img k, In k (keywords (addTo img ks))
                 <-> In k (keywords img) \/ In k ks)
  /\ handleAddKeywords i ks (handleAddKeywords i ks c) = handleAddKeywords i ks c
  /\ handleAddKeywordsToAll confirmed ks (handleAddKeywordsToAll confirmed ks c)
     = handleAddKeywordsToAll confirmed ks c.
Proof.
  split; [intros; apply addTo_In|]. split.
  - unfold handleAddKeywords; rewrite map_map; apply map_ext; intros img.
    destruct (hasId i img) eqn:E; [|now rewrite E].
    replace (hasId i (addTo img ks)) with true
      by (unfold hasId in *; now rewrite addTo_id).
    apply addTo_twice.
  - unfold handleAddKeywordsToAll.
    destruct (List.length ks =? 0)%nat eqn:Hks; simpl; [reflexivity|].
    destruct (List.length (successfulImages c) =? 0)%nat eqn:Hs; simpl;
      [now rewrite Hs|].
    destruct confirmed; simpl; [|now rewrite Hs].
    set (g := fun img => if truthy (suggestedName img) then addTo img ks else img).
    assert (Hg : forall img, truthy (suggestedName (g img)) = truthy (suggestedName img)).
    { intros img; unfold g; destruct (truthy (suggestedName img)) eqn:E;
        [now rewrite addTo_name | assumption]. }
    assert (Hlen : List.length (successfulImages (map g c))
                   = List.length (successfulImages c)).
    { unfold successfulImages; clear Hs.
      induction c as [|img c IH]; simpl; [reflexivity|].
      rewrite Hg; destruct (truthy (suggestedName img)); simpl; now rewrite IH. }
    fold g; rewrite Hlen, Hs.
    rewrite map_map; apply map_ext; intros img.
    fold (g img); fold (g (g img)).
    unfold g at 1; rewrite Hg.
    unfold g; destruct (truthy (suggestedName img)); [apply addTo_twice | reflexivity].
Qed.

(** X19. The keywords a picker offers for an item are those of the
    user's list the item does not have; once all of them are added, the
    item holds its keywords and the whole list, and nothing is left to
    offer. *)
Theorem offered_keywords (userDefinedKeywords : list jsstring)
        (img : ProcessedImage) :
  let offered := availableKeywords userDefinedKeywords (keywords img) in
  let img' := addTo img offered in
  (forall k, In k offered <-> In k userDefinedKeywords /\ ~ In k (keywords img))
  /\ (forall k, In k (keywords img')
                <-> In k (keywords img) \/ In k userDefinedKeywords)
  /\ availableKeywords userDefinedKeywords (keywords img') = [].
Proof.
  intros offered img'.
  assert (Ho : forall k, In k offered
                         <-> In k userDefinedKeywords /\ ~ In k (keywords img))
    by (intros k; apply new_keywords_In).
  assert (Hi : forall k, In k (keywords img')
                         <-> In k (keywords img) \/ In k userDefinedKeywords).
  { intros k; unfold img'; rewrite addTo_In, Ho.
    destruct (includes (keywords img) k) eqn:E.
    - apply includes_In in E; tauto.
    - assert (~ In k (keywords img)) by (rewrite <- includes_In, E; discriminate).
      tauto. }
  split; [exact Ho|]. split; [exact Hi|].
  apply filter_none; intros k Hk.
  rewrite negb_false_iff; apply includes_In, Hi; auto.
Qed.

Lemma permutation_filter {A} (f : A -> bool) (l l' : list A) :
  Permutation l l' -> Permutation (filter f l) (filter f l').
Proof.
  induction 1 as [|x l l' _ IH|x y l|l l' l'' _ IH1 _ IH2]; simpl.
  - constructor.
  - destruct (f x); [now constructor | assumption].
  - destruct (f x), (f y); try reflexivity. apply perm_swap.
  - now transitivity (filter f l').
Qed.

(** Two lists sorted for the order of the code units that hold the same
    elements are the same list. *)
Lemma sorted_unique (l l' : list jsstring) :
  sortedAscending l -> sortedAscending l' -> Permutation l l' -> l = l'.
Proof.
  intros H H'; apply sorted_strongly in H; apply sorted_strongly in H'.
  revert l' H'; induction H as [|x l Hl IH Hx]; intros l' H' P.
  - now apply Permutation_nil in P.
  - destruct H' as [|y l' Hl' Hy].
    + apply Permutation_sym, Permutation_nil in P; discriminate.
    + assert (E : x = y).
      { assert (Hxin : In x (y :: l')) by (apply (Permutation_in _ P); now left).
        assert (Hyin : In y (x :: l))
          by (apply (Permutation_in _ (Permutation_sym P)); now left).
        destruct Hxin as [->|Hxin]; [reflexivity|].
        destruct Hyin as [->|Hyin]; [reflexivity|].
        rewrite Forall_forall in Hx, Hy.
        apply str_le_antisym; [apply Hx, Hyin | apply Hy, Hxin]. }
      subst y; f_equal; apply IH; [exact Hl'|].
      now apply Permutation_cons_inv in P.
Qed.

(** X20. Removing a keyword from an item right after adding it, when the
    item did not have it and its keywords were sorted, gives the collection
    back as it was. *)
Theorem add_then_remove (i k : jsstring) (c : collection) :
  allSorted c ->
  (forall img, In img c -> id img = i -> ~ In k (keywords img)) ->
  handleRemoveKeyword i k (handleAddKeywords i [k] c) = c.
Proof.
  intros Hs Hk.
  unfold handleRemoveKeyword, handleAddKeywords; rewrite map_map.
  rewrite <- (map_id c) at 2; apply map_ext_in; intros img Hin.
  destruct (hasId i img) eqn:E; [|now rewrite E].
  replace (hasId i (addTo img [k])) with true
    by (unfold hasId in *; now rewrite addTo_id).
  pose proof E as Hi; apply hasId_true in Hi.
  specialize (Hk img Hin Hi).
  unfold allSorted in Hs; rewrite Forall_forall in Hs; specialize (Hs img Hin).
  assert (Hnew : filter (fun x => negb (includes (keywords img) x)) [k] = [k]).
  { simpl. destruct (includes (keywords img) k) eqn:Hinc; [|reflexivity].
    apply includes_In in Hinc; contradiction. }
  assert (Hf : filter (fun x => negb (str_eqb x k)) (sort (keywords img ++ [k]))
               = keywords img).
  { apply sorted_unique; [apply sorted_filter, sort_sorted | assumption |].
    rewrite (permutation_filter _ _ _ (sort_perm _)), filter_app; simpl.
    rewrite str_eqb_refl; simpl; rewrite app_nil_r.
    rewrite filter_fixed; [reflexivity|].
    apply Forall_forall; intros x Hx.
    rewrite negb_true_iff; apply str_eqb_neq; intros ->; contradiction. }
  unfold addTo; rewrite Hnew; simpl.
  rewrite Hf; destruct img; reflexivity.
Qed.

Lemma add_then_remove_witness :
  handleRemoveKeyword (id Sample.namedCat) (lit "dog")
    (handleAddKeywords (id Sample.namedCat) [lit "dog"] [Sample.namedCat])
  = [Sample.namedCat].
Proof.
  apply add_then_remove.
  - constructor; [|constructor].
    vm_compute; repeat constructor.
  - intros img [<-|[]] _.
    vm_compute; intros H; repeat (destruct H as [H|H]; [discriminate H|]); exact H.
Defined.

End AddRemove.

(** ** The user's keywords and the keywords on offer *)

Section UserKeywords.
Import App Spec.

Lemma trimStart_head (l : jsstring) (c : codeunit) (r : jsstring) :
  trimStart l = c :: r -> isWhiteSpace c = false.
Proof.
  induction l as [|x l IH]; simpl; [discriminate|].
  destruct (isWhiteSpace x) eqn:E; [exact IH|].
  intros H; injection H as <- _; exact E.
Qed.

Lemma trimStart_suffix (l : jsstring) :
  exists pre, l = pre ++ trimStart l /\ blank pre.
Proof.
  induction l as [|x l (pre & IH & Hb)]; simpl.
  - exists []; split; [reflexivity | constructor].
  - destruct (isWhiteSpace x) eqn:E.
    + exists (x :: pre); split; [simpl; now f_equal | now constructor].
    + exists []; split; [reflexivity | constructor].
Qed.

Lemma trimStart_blank (pre l : jsstring) :
  blank pre -> trimStart (pre ++ l) = trimStart l.
Proof.
  induction 1 as [|x pre Hx _ IH]; simpl; [reflexivity|].
  now rewrite Hx.
Qed.

Lemma trimStart_keeps (l : jsstring) (c : codeunit) :
  isWhiteSpace c = false -> trimStart (l ++ [c]) <> [].
Proof.
  intros Hc; induction l as [|x l IH]; simpl.
  - rewrite Hc; discriminate.
  - destruct (isWhiteSpace x); [exact IH | discriminate].
Qed.

Lemma trim_starts (c : codeunit) (rest : jsstring) :
  isWhiteSpace c = false -> truthy (trim (c :: rest)) = true.
Proof.
  intros Hc; unfold trim, trimEnd; simpl trimStart; rewrite Hc.
  simpl rev.
  pose proof (trimStart_keeps (rev rest) c Hc) as Hn.
  destruct (trimStart (rev rest ++ [c])) as [|x l] eqn:E; [contradiction|].
  simpl; destruct (rev l ++ [x]) eqn:E'; [|reflexivity].
  destruct (rev l); discriminate.
Qed.

Lemma trimmed_fixed (t : jsstring) : trimmed t -> trim t = t.
Proof.
  intros [Hh Hl]; unfold trim, trimEnd.
  assert (E : trimStart t = t).
  { destruct t as [|c r]; [reflexivity|].
    simpl; now rewrite (Hh c r eq_refl). }
  rewrite E.
  assert (E' : trimStart (rev t) = rev t).
  { destruct (rev t) as [|c r] eqn:R; [reflexivity|].
    simpl; now rewrite (Hl c r eq_refl). }
  rewrite E'; apply rev_involutive.
Qed.

Lemma trim_trimmed (s : jsstring) : trimmed (trim s).
Proof.
  unfold trim, trimEnd; set (t := trimStart s).
  destruct (trimStart_suffix (rev t)) as (pre & Hpre & _).
  split.
  - intros c r E.
    apply (trimStart_head s c (r ++ rev pre)).
    fold t. rewrite <- (rev_involutive t), Hpre, rev_app_distr, E; reflexivity.
  - intros c r E; rewrite rev_involutive in E.
    now apply trimStart_head in E.
Qed.

Lemma trim_idempotent (s : jsstring) : trim (trim s) = trim s.
Proof. apply trimmed_fixed, trim_trimmed. Qed.

Lemma trim_subset (s : jsstring) (c : codeunit) : In c (trim s) -> In c s.
Proof.
  assert (H : forall l, In c (trimStart l) -> In c l).
  { intros l Hin; destruct (trimStart_suffix l) as (pre & E & _).
    rewrite E; apply in_or_app; now right. }
  unfold trim, trimEnd; intros Hin.
  apply H. apply in_rev in Hin. apply H in Hin. now apply in_rev in Hin.
Qed.

Lemma trim_blank (s : jsstring) : blank s -> trim s = [].
Proof.
  intros H; unfold trim.
  assert (E : trimStart s = []).
  { induction H as [|x s Hx _ IH]; simpl; [reflexivity | now rewrite Hx]. }
  rewrite E; reflexivity.
Qed.

Lemma split_pieces (sep : codeunit) (s : jsstring) :
  Forall (fun piece => ~ In sep piece) (GeminiService.split sep s).
Proof.
  induction s as [|c s IH]; simpl; [repeat constructor; intros []|].
  destruct (unit_eqb c sep) eqn:E.
  - constructor; [intros [] | exact IH].
  - destruct (GeminiService.split sep s) as [|h t];
      [repeat constructor; intros [H|[]]; subst; unfold unit_eqb in E;
       now rewrite N.eqb_refl in E|].
    inversion IH as [|? ? Hh Ht]; subst.
    constructor; [|assumption].
    intros [H|H]; [|contradiction].
    subst; unfold unit_eqb in E; now rewrite N.eqb_refl in E.
Qed.

(** X21. Every entry of the list made from the user's text is a keyword
    without a comma, without white space at either end, and not empty; a
    text that is empty or all white space gives no entry. *)
Theorem user_keywords_clean (userKeywords : jsstring) :
  Forall cleanKeyword (userKeywordList userKeywords)
  /\ (blank userKeywords -> userKeywordList userKeywords = []).
Proof.
  unfold userKeywordList; split.
  - destruct (truthy (trim userKeywords)); [|constructor].
    apply Forall_forall; intros k Hk.
    apply filter_In in Hk; destruct Hk as [Hk Ht].
    apply in_map_iff in Hk; destruct Hk as (piece & <- & Hp).
    pose proof (split_pieces GeminiService.comma userKeywords) as Hsplit.
    rewrite Forall_forall in Hsplit; specialize (Hsplit piece Hp).
    repeat split.
    + destruct (trim piece); [discriminate Ht | discriminate].
    + intros Hc; apply Hsplit; now apply trim_subset.
    + apply trim_idempotent.
  - intros H; now rewrite (trim_blank _ H).
Qed.

Lemma clean_head (k : jsstring) :
  cleanKeyword k -> exists c r, k = c :: r /\ isWhiteSpace c = false.
Proof.
  intros (Hne & _ & Ht).
  destruct k as [|c r]; [contradiction|].
  exists c, r; split; [reflexivity|].
  pose proof (trim_trimmed (c :: r)) as [Hh _].
  rewrite Ht in Hh; now apply (Hh c r).
Qed.

Lemma trim_padded (ws k : jsstring) :
  blank ws -> cleanKeyword k -> trim (ws ++ k) = k.
Proof.
  intros Hws Hk; pose proof Hk as (_ & _ & Ht).
  destruct (clean_head k Hk) as (c & r & -> & Hc).
  unfold trim; rewrite (trimStart_blank ws _ Hws).
  unfold trim in Ht; simpl in Ht |- *; rewrite Hc in Ht |- *; exact Ht.
Qed.

Lemma blank_no_comma (ws : jsstring) : blank ws -> ~ In GeminiService.comma ws.
Proof.
  intros H Hin; unfold blank in H; rewrite Forall_forall in H.
  specialize (H _ Hin); vm_compute in H; discriminate.
Qed.

Lemma split_join (ws : jsstring) (k : jsstring) (ks : list jsstring) :
  blank ws -> Forall cleanKeyword (k :: ks) ->
  GeminiService.split GeminiService.comma (join (GeminiService.comma :: ws) (k :: ks))
  = k :: map (app ws) ks.
Proof.
  intros Hws; revert k; induction ks as [|k' ks IH]; intros k H.
  - inversion H as [|? ? (_ & Hc & _) _]; subst.
    simpl; now apply split_without.
  - inversion H as [|? ? (_ & Hc & _) H']; subst.
    change (join (GeminiService.comma :: ws) (k :: k' :: ks))
      with (k ++ GeminiService.comma :: ws ++ join (GeminiService.comma :: ws) (k' :: ks)).
    rewrite (split_at_first _ _ _ Hc).
    f_equal.
    inversion H' as [|? ? Hk' _]; subst.
    destruct (clean_head k' Hk') as (c & r & -> & _).
    assert (E : forall rest,
               GeminiService.split GeminiService.comma (ws ++ rest)
               = match GeminiService.split GeminiService.comma rest with
                 | h :: t => (ws ++ h) :: t
                 | [] => [ws]
                 end).
    { intros rest; pose proof (blank_no_comma ws Hws) as Hn.
      clear - Hn; induction ws as [|x ws IHw]; simpl.
      - destruct (GeminiService.split GeminiService.comma rest) eqn:E; [|reflexivity].
        destruct rest; simpl in E; [discriminate|].
        destruct (unit_eqb c GeminiService.comma); [discriminate|].
        destruct (GeminiService.split GeminiService.comma rest); discriminate.
      - destruct (unit_eqb x GeminiService.comma) eqn:Ex.
        + apply N.eqb_eq in Ex; subst; simpl in Hn; tauto.
        + rewrite IHw by (simpl in Hn; tauto).
          destruct (GeminiService.split GeminiService.comma rest); reflexivity. }
    rewrite E, (IH (c :: r) H'); reflexivity.
Qed.

(** X22. Reading back a list of keywords written with commas, or with
    commas followed by white space, gives the list: for keywords that are
    not empty, hold no comma and have no white space at either end, the
    user's list of their joined text is the keywords themselves. *)
Theorem user_keywords_round_trip (ws : jsstring) (ks : list jsstring) :
  blank ws -> Forall cleanKeyword ks ->
  userKeywordList (join (GeminiService.comma :: ws) ks) = ks.
Proof.
  intros Hws Hks; unfold userKeywordList.
  destruct ks as [|k ks]; [reflexivity|].
  assert (Hne : truthy (trim (join (GeminiService.comma :: ws) (k :: ks))) = true).
  { inversion Hks as [|? ? Hk _]; subst.
    destruct (clean_head k Hk) as (c & r & -> & Hc).
    destruct ks; cbn [join app]; now apply trim_starts. }
  rewrite Hne, (split_join ws k ks Hws Hks); simpl.
  inversion Hks as [|? ? Hk Hks']; subst.
  pose proof Hk as (Hkne & _ & Hkt); rewrite Hkt.
  destruct k; [contradiction|]; simpl; f_equal.
  clear - Hws Hks'; induction Hks' as [|k' ks Hk' _ IH]; simpl; [reflexivity|].
  rewrite (trim_padded ws k' Hws Hk').
  destruct Hk' as (Hne & _); destruct k'; [contradiction|].
  simpl; now f_equal.
Qed.

Lemma user_keywords_round_trip_witness :
  userKeywordList (lit "nature, beach, sunset")
  = [lit "nature"; lit "beach"; lit "sunset"].
Proof.
  apply (user_keywords_round_trip (lit " ") [lit "nature"; lit "beach"; lit "sunset"]).
  - repeat constructor.
  - repeat constructor; try discriminate;
      vm_compute; intros H; repeat (destruct H as [H|H]; [discriminate H|]); exact H.
Defined.

Lemma setOf_In (seen l : list jsstring) (k : jsstring) :
  In k (setOf seen l) <-> In k l /\ ~ In k seen.
Proof.
  revert seen; induction l as [|x l IH]; intros seen; simpl; [tauto|].
  destruct (includes seen x) eqn:E.
  - apply includes_In in E; rewrite IH; split; [tauto|].
    intros [[->|H] Hn]; [contradiction | tauto].
  - assert (Hx : ~ In x seen) by (rewrite <- includes_In, E; discriminate).
    simpl; rewrite IH; simpl.
    destruct (str_dec x k) as [->|Hne]; tauto.
Qed.

Lemma setOf_NoDup (seen l : list jsstring) : NoDup (setOf seen l).
Proof.
  revert seen; induction l as [|x l IH]; intros seen; simpl; [constructor|].
  destruct (includes seen x); [apply IH|].
  constructor; [|apply IH].
  rewrite setOf_In; simpl; tauto.
Qed.

(** X23. The keywords offered for bulk application are the keywords of
    the user's list and of all items, each one once, sorted ascending. *)
Theorem all_unique_keywords (c : collection) (userList : list jsstring) :
  NoDup (allUniqueKeywords c userList)
  /\ sortedAscending (allUniqueKeywords c userList)
  /\ forall k, In k (allUniqueKeywords c userList)
               <-> In k userList \/ exists img, In img c /\ In k (keywords img).
Proof.
  unfold allUniqueKeywords; cbv zeta.
  split; [|split].
  - apply (Permutation_NoDup (Permutation_sym (sort_perm _))), setOf_NoDup.
  - apply sort_sorted.
  - intros k; split.
    + intros H; apply (Permutation_in _ (sort_perm _)) in H.
      apply setOf_In in H; destruct H as [H _].
      apply in_app_or in H; destruct H as [H|H]; [auto|right].
      apply in_flat_map in H; exact H.
    + intros H; apply (Permutation_in _ (Permutation_sym (sort_perm _))).
      apply setOf_In; split; [|intros []].
      apply in_or_app; destruct H as [H|H]; [auto|right].
      apply in_flat_map; exact H.
Qed.

End UserKeywords.

(** ** A batch run without interference *)

Section QuietBatch.
Import App Spec.
Variable unicodeLower : jsstring -> jsstring.
Variable undefinedCallMessage : jsstring.

Let generate := GeminiService.generateImageDetails unicodeLower undefinedCallMessage.
Let controller := handleGenerateNameForImage unicodeLower undefinedCallMessage.
Let loop := batchLoop unicodeLower undefinedCallMessage.

Lemma quiet_round_live (processedImages : collection) (i : jsstring)
      (r : round) (w : world) :
  In i (map id processedImages) ->
  during_call r = [] -> during_delay r = [] ->
  live (pace r (controller processedImages i r w))
  = applyResult i (generate (env r) (clock w + latency r)) (markLoading i (live w)).
Proof.
  intros Hin Hc Hd.
  destruct (find_id i processedImages Hin) as [found Hf].
  unfold pace, controller, handleGenerateNameForImage; rewrite Hf, Hc, Hd.
  reflexivity.
Qed.

Lemma round_settles (i : jsstring) (pending : list jsstring)
      (e : GeminiService.call_env) (now : N) (c : collection) :
  Forall (settledOrPending (i :: pending)) c ->
  Forall (settledOrPending pending) (applyResult i (generate e now) (markLoading i c)).
Proof.
  intros H.
  pose proof (resolved_filename unicodeLower undefinedCallMessage e now) as Hname.
  fold generate in Hname.
  destruct (generate e now) as [d|t]; simpl;
    unfold applySuccess, applyFailure, markLoading; rewrite map_map;
    apply Forall_forall; intros img' Hin; apply in_map_iff in Hin;
    destruct Hin as (img & <- & Hin);
    rewrite Forall_forall in H; specialize (H img Hin);
    destruct H as (Hl & Hs);
    destruct (hasId i img) eqn:E.
  - unfold hasId in *; simpl; rewrite E; split; [reflexivity|].
    left; simpl; now apply Hname.
  - rewrite E; split; [assumption|].
    apply hasId_false in E.
    destruct Hs as [Hs|[Hs|[Hs|Hs]]]; auto; congruence.
  - unfold hasId in *; simpl; rewrite E; split; [reflexivity|].
    right; left; simpl; discriminate.
  - rewrite E; split; [assumption|].
    apply hasId_false in E.
    destruct Hs as [Hs|[Hs|[Hs|Hs]]]; auto; congruence.
Qed.

Lemma round_frame (i : jsstring) (r : GeminiService.settled) (c : collection)
      (k : nat) (img : ProcessedImage) :
  nth_error c k = Some img -> id img <> i ->
  nth_error (applyResult i r (markLoading i c)) k = Some img.
Proof.
  intros Hk Hi.
  destruct (applyResult_update i r) as (f & _ & Hf); rewrite Hf.
  apply update_others; [|assumption].
  unfold markLoading; now apply update_others.
Qed.

Lemma round_ids (i : jsstring) (r : GeminiService.settled) (c : collection) :
  map id (applyResult i r (markLoading i c)) = map id c.
Proof.
  destruct (applyResult_update i r) as (f & Hid & Hf); rewrite Hf.
  rewrite update_ids by assumption.
  unfold markLoading; now apply update_ids.
Qed.

Lemma quiet_loop (processedImages : collection) (rounds : nat -> round)
      (todo : collection) :
  undisturbed rounds ->
  (forall img, In img todo -> In (id img) (map id processedImages)) ->
  forall (n : nat) (w : world),
    Forall (settledOrPending (map id todo)) (live w) ->
    let w' := loop processedImages rounds n todo w in
    Forall (settledOrPending []) (live w')
    /\ map id (live w') = map id (live w)
    /\ (forall k img, nth_error (live w) k = Some img ->
                      ~ In (id img) (map id todo) ->
                      nth_error (live w') k = Some img).
Proof.
  intros Hq; induction todo as [|image rest IH]; intros Hsub n w Hinv.
  - simpl; auto.
  - cbv zeta.
    change (loop processedImages rounds n (image :: rest) w)
      with (loop processedImages rounds (S n) rest
              (pace (rounds n) (controller processedImages (id image) (rounds n) w))).
    destruct (Hq n) as [Hc Hd].
    assert (Hin : In (id image) (map id processedImages))
      by (apply Hsub; now left).
    pose proof (quiet_round_live processedImages (id image) (rounds n) w Hin Hc Hd)
      as Hlive.
    set (w1 := pace (rounds n) (controller processedImages (id image) (rounds n) w)) in *.
    assert (Hinv1 : Forall (settledOrPending (map id rest)) (live w1))
      by (rewrite Hlive; now apply round_settles).
    destruct (IH (fun img H => Hsub img (or_intror H)) (S n) w1 Hinv1)
      as (H1 & H2 & H3).
    split; [exact H1|]. split.
    + rewrite H2, Hlive; apply round_ids.
    + intros k img Hk Hnot; apply H3.
      * rewrite Hlive; apply round_frame; [assumption|].
        intros E; apply Hnot; simpl; now left.
      * intros E; apply Hnot; simpl; now right.
Qed.

(** X24. A batch run during which nothing else happens to the
    collection, started when no item is in flight, ends with the same
    items in the same order, none in flight, each with a name or with an
    error: what a next run would take up is the items whose call failed.
    The items whose identity the run did not select are as they were. *)
Theorem quiet_batch_completes (rounds : nat -> round) (w : world) :
  undisturbed rounds ->
  isProcessing (live w) = false ->
  let w' := handleGenerateAllNames unicodeLower undefinedCallMessage rounds w in
  map id (live w') = map id (live w)
  /\ isProcessing (live w') = false
  /\ Forall (fun img => suggestedName img <> [] \/ error img <> None) (live w')
  /\ (forall img, In img (filter toProcess (live w')) -> error img <> None)
  /\ (forall k img, nth_error (live w) k = Some img ->
                    ~ In (id img) (map id (filter toProcess (live w))) ->
                    nth_error (live w') k = Some img).
Proof.
  intros Hq Hp w'.
  assert (Hinv : Forall (settledOrPending (map id (filter toProcess (live w)))) (live w)).
  { apply isProcessing_false in Hp; rewrite Forall_forall in Hp.
    apply Forall_forall; intros img Hin; split; [now apply Hp|].
    destruct (suggestedName img) eqn:E; [|left; discriminate].
    right; right; apply in_map, filter_In; split; [assumption|].
    unfold toProcess; now rewrite E, (Hp img Hin). }
  destruct (quiet_loop (live w) rounds (filter toProcess (live w)) Hq
              (fun img H => in_map id _ _ (proj1 (proj1 (filter_In _ _ _) H)))
              0%nat w Hinv) as (H1 & H2 & H3).
  fold w' in H1, H2, H3.
  assert (Hset : Forall (fun img => suggestedName img <> [] \/ error img <> None) (live w')).
  { revert H1; apply Forall_impl; intros img (_ & [H|[H|[]]]); auto. }
  split; [exact H2|]. split.
  - apply isProcessing_false; revert H1; apply Forall_impl; now intros img (H & _).
  - split; [exact Hset|]. split; [|exact H3].
    intros img Hin; apply filter_In in Hin; destruct Hin as [Hin Ht].
    rewrite Forall_forall in Hset; destruct (Hset img Hin) as [H|H]; [|exact H].
    unfold toProcess in Ht; destruct (suggestedName img); [contradiction | discriminate].
Qed.

End QuietBatch.

Lemma quiet_batch_completes_witness :
  App.isProcessing
    (App.live (App.handleGenerateAllNames Sample.noUnicodeLower Sample.engineMessage
                 Sample.allRejected Sample.atStart)) = false.
Proof.
  apply (quiet_batch_completes Sample.noUnicodeLower Sample.engineMessage
           Sample.allRejected Sample.atStart).
  - intros n; split; reflexivity.
  - reflexivity.
Defined.

(** ** The length of a batch run *)

Section BatchDuration.
Import App Spec.
Variable unicodeLower : jsstring -> jsstring.
Variable undefinedCallMessage : jsstring.

Let controller := handleGenerateNameForImage unicodeLower undefinedCallMessage.
Let loop := batchLoop unicodeLower undefinedCallMessage.

Lemma loop_clock (processedImages : collection) (rounds : nat -> round)
      (todo : collection) :
  (forall img, In img todo -> In (id img) (map id processedImages)) ->
  forall (n : nat) (w : world),
    clock (loop processedImages rounds n todo w)
    = clock w + elapsed rounds n (List.length todo).
Proof.
  induction todo as [|image rest IH]; intros Hsub n w.
  - simpl; lia.
  - change (loop processedImages rounds n (image :: rest) w)
      with (loop processedImages rounds (S n) rest
              (pace (rounds n) (controller processedImages (id image) (rounds n) w))).
    rewrite IH by (intros img H; apply Hsub; now right).
    destruct (find_id (id image) processedImages (Hsub image (or_introl eq_refl)))
      as [found Hf].
    unfold pace, controller, handleGenerateNameForImage; rewrite Hf; simpl; lia.
Qed.

Lemma elapsed_least (rounds : nat -> round) (n count : nat) :
  pacingInterval * N.of_nat count <= elapsed rounds n count.
Proof.
  revert n; induction count as [|count IH]; intros n.
  - simpl; lia.
  - specialize (IH (S n)).
    change (elapsed rounds n (S count))
      with (latency (rounds n) + pacingInterval + lateness (rounds n)
            + elapsed rounds (S n) count).
    lia.
Qed.

(** X25. A batch run lasts as long as its calls take plus, after every
    call, the last one included, the pacing interval and the lateness of
    its timer, whatever else happens meanwhile: for [n] selected items
    that is 1100 ms times [n] at least. *)
Theorem batch_duration (rounds : nat -> round) (w : world) :
  let w' := handleGenerateAllNames unicodeLower undefinedCallMessage rounds w in
  clock w' = clock w + elapsed rounds 0 (imagesToProcessCount (live w))
  /\ clock w + 1100 * N.of_nat (imagesToProcessCount (live w)) <= clock w'.
Proof.
  intros w'; subst w'; unfold handleGenerateAllNames; cbv zeta.
  fold loop; rewrite loop_clock.
  - unfold imagesToProcessCount; split; [reflexivity|].
    pose proof (elapsed_least rounds 0 (List.length (filter toProcess (live w)))) as H.
    change pacingInterval with 1100 in H; lia.
  - intros img H; apply in_map; now apply filter_In in H.
Qed.

End BatchDuration.

(** ** The file name the service returns *)

Section ServiceFilename.
Import App Spec GeminiService.
Variable unicodeLower : jsstring -> jsstring.
Variable undefinedCallMessage : jsstring.

Let generate := generateImageDetails unicodeLower undefinedCallMessage.

Lemma replied_filename (r : response) (now : N) :
  cleanedOrFallback unicodeLower (proposedTitle r) now
    (filename (repliedDetails unicodeLower r now)).
Proof.
  pose proof (resultFilename_shape unicodeLower (proposedTitle r) now) as H.
  cbv zeta in H; exact H.
Qed.

Lemma generate_replied (e : call_env) (now : N) (r : response) :
  requestIssued e = true -> api e = ApiReplies r ->
  generate e now = Resolved (repliedDetails unicodeLower r now).
Proof.
  intros Hreq Hr.
  destruct (generate_cases unicodeLower undefinedCallMessage e now)
    as [[_ E]|[Hno _]]; [|congruence].
  fold generate in E; rewrite E, Hr; reflexivity.
Qed.

Lemma generate_resolved (e : call_env) (now : N) (d : details) :
  generate e now = Resolved d ->
  exists r, api e = ApiReplies r /\ d = repliedDetails unicodeLower r now.
Proof.
  intros H.
  destruct (generate_cases unicodeLower undefinedCallMessage e now)
    as [[_ E]|[_ [[_ E]|[[_ (t & _ & E)]|[[_ [_ E]]|[_ [_ E]]]]]]];
    fold generate in E; rewrite E in H; try discriminate.
  unfold requestDetails in H.
  destruct (api e) as [t|n m|r]; try discriminate.
  injection H as <-; exists r; split; reflexivity.
Qed.

(** C3. Whatever title the service's reply proposes, the file name in the
    result of [generateImageDetails] is either the cleaned title, which is
    then not empty, holds only units of [a-z0-9-], neither starts nor ends
    with a hyphen and has no two hyphens in a row; or, when nothing is left
    of the title, [image-] followed by the decimal digits of the current
    time.  Every call that gets a reply resolves to such a name, and every
    result of the call has one. *)
Theorem service_filename_shape (e : call_env) (now : N) :
  (forall r, requestIssued e = true -> api e = ApiReplies r ->
     exists d, generate e now = Resolved d
               /\ cleanedOrFallback unicodeLower (proposedTitle r) now (filename d))
  /\ (forall d, generate e now = Resolved d ->
        exists r, api e = ApiReplies r
                  /\ cleanedOrFallback unicodeLower (proposedTitle r) now (filename d)).
Proof.
  split.
  - intros r Hreq Hr; exists (repliedDetails unicodeLower r now).
    split; [now apply generate_replied | apply replied_filename].
  - intros d H; destruct (generate_resolved e now d H) as (r & Hr & ->).
    exists r; split; [assumption | apply replied_filename].
Qed.

End ServiceFilename.

Lemma service_filename_shape_witness :
  exists d,
    GeminiService.generateImageDetails Sample.noUnicodeLower Sample.engineMessage
      (Sample.okEnv (Sample.reply "Sunset  Walk!" ["sea"; "dusk"]%string)) 1700000000000
    = GeminiService.Resolved d
    /\ Spec.cleanedOrFallback Sample.noUnicodeLower (lit "Sunset  Walk!") 1700000000000
         (GeminiService.filename d).
Proof.
  exact (proj1 (service_filename_shape Sample.noUnicodeLower Sample.engineMessage
                  (Sample.okEnv (Sample.reply "Sunset  Walk!" ["sea"; "dusk"]%string))
                  1700000000000)
               _ eq_refl eq_refl).
Defined.

(** ** The extension an upload stores *)

Section StoredExtension.
Import App Spec.

Lemma newImage_extension (u : upload) :
  extensionOf (name (upload_file u)) (originalExtension (newImage u))
  /\ (~ In dot (name (upload_file u)) ->
      forall pre c newName, name (upload_file u) = pre ++ [c] ->
        newFilename (withName (newImage u) newName) = newName ++ [c]).
Proof.
  pose proof (extension_of_upload u) as H; cbv zeta in H.
  destruct H as (H1 & H2 & H3 & H4).
  split; [split; [exact H1 | split; [exact H2 | exact H3]] | exact H4].
Qed.

(** C9. Every item an upload stores for an accepted file keeps as its
    extension the rest of the file's name from its last dot on, or, for a
    name without a dot, the last unit of the name; so the extension of a
    name that is not empty is never empty, and an item uploaded under a
    name without a dot carries that last unit behind every name it is
    exported under.  Every accepted file gets such an item. *)
Theorem stored_extension (files : list upload) (prev : collection) :
  (forall u, In u files ->
     startsWith (type (upload_file u)) (lit "image/") = true ->
     exists img, In img (handleImageUpload files prev)
                 /\ file img = upload_file u
                 /\ imageUrl img = objectUrl u
                 /\ extensionOf (name (upload_file u)) (originalExtension img))
  /\ (forall img, In img (handleImageUpload files prev) ->
        In img prev
        \/ (extensionOf (name (file img)) (originalExtension img)
            /\ (~ In dot (name (file img)) ->
                forall pre c newName, name (file img) = pre ++ [c] ->
                  newFilename (withName img newName) = newName ++ [c]))).
Proof.
  assert (E : handleImageUpload files prev = prev ++ newImages files).
  { unfold handleImageUpload.
    destruct (newImages files); simpl; [now rewrite app_nil_r | reflexivity]. }
  rewrite E; split.
  - intros u Hin Hty; exists (newImage u); split.
    + apply in_or_app; right; unfold newImages.
      apply in_map, filter_In; split; assumption.
    + split; [reflexivity|]. split; [reflexivity|].
      apply (proj1 (newImage_extension u)).
  - intros img Hin; apply in_app_or in Hin; destruct Hin as [Hin|Hin]; [now left|].
    right; unfold newImages in Hin; apply in_map_iff in Hin.
    destruct Hin as (u & <- & _); apply newImage_extension.
Qed.

Lemma stored_extension_witness :
  exists img,
    In img (handleImageUpload [Sample.catUpload; Sample.readmeUpload] [Sample.cityLights])
    /\ file img = Sample.readme
    /\ imageUrl img = lit "blob:5"
    /\ extensionOf (lit "README") (originalExtension img).
Proof.
  exact (proj1 (stored_extension [Sample.catUpload; Sample.readmeUpload]
                  [Sample.cityLights])
               Sample.readmeUpload (or_intror (or_introl eq_refl)) eq_refl).
Defined.

End StoredExtension.
